(** * Event aggregator with a durable deduplication store

    A shallow embedding of [src/dedup_store.py] (class [DedupStore]) and
    [src/aggregator.py] (class [EventAggregator]), followed by the properties
    of the specification that are stated about them.

    - The SQLite table [processed_events] is the list of its rows in
      insertion (rowid) order; its PRIMARY KEY (topic, event_id) is enforced
      by the INSERT, as the engine does, and is an invariant to be proved.
    - [datetime.now(...)] and [time.time()] are readings of the clock, which
      the callers of the model pass in.
    - A failure of the persistence layer during the INSERT is an input of
      the model (an optional [sqlite_error]); the SELECTs are taken to
      succeed, so [is_duplicate], the queries and [publish] are modelled
      for the calls that return. In the code a sqlite error raised by the
      SELECT of [is_duplicate] leaves [publish] as an exception, after
      [received] was incremented for the event at hand.
    - The asyncio event loop is an interleaving of atomic steps: a coroutine
      runs without interruption between two suspension points. The state of
      the system ([World]) holds the store, the aggregator and the tasks;
      [step] is one atomic step and [run] a sequence of them.
    - A restart of the process is a step that builds a new aggregator on
      the rows that the database file holds. *)

From stdpp Require Import base list strings sorting.
From Stdlib Require Import QArith Lqa.
From Stdlib Require Strings.String Structures.OrderedTypeEx.

#[local] Open Scope nat_scope.

(** ** Data model *)

(** [models.Event] (a pydantic model): five fields; the payload is opaque
    to the aggregator. *)
Record Event := mkEvent {
  topic : string;
  event_id : string;
  timestamp : string;
  source : string;
  payload : string
}.

(** A row of [processed_events]:
    (topic, event_id, timestamp, processed_at), the tuple that
    [cursor.fetchall()] yields. *)
Definition Row : Type := string * string * string * string.

Definition row_topic (r : Row) : string := r.1.1.1.
Definition row_event_id (r : Row) : string := r.1.1.2.
Definition row_timestamp (r : Row) : string := r.1.2.
Definition row_processed_at (r : Row) : string := r.2.

(** The deduplication key. *)
Definition Key : Type := string * string.
Definition row_key (r : Row) : Key := (row_topic r, row_event_id r).
Definition event_key (e : Event) : Key := (topic e, event_id e).

(** The exception classes of the [sqlite3] module (PEP 249). *)
Inductive sqlite_error :=
  | IntegrityError
  | OperationalError
  | DatabaseError
  | InternalError
  | ProgrammingError
  | DataError
  | NotSupportedError
  | InterfaceError.

#[global] Instance sqlite_error_eq_dec : EqDecision sqlite_error.
Proof. solve_decision. Defined.

(** The outcome of a call: a returned value or a raised exception. *)
Inductive outcome (A : Type) :=
  | Return (a : A)
  | Raise (e : sqlite_error).
Arguments Return {A} a.
Arguments Raise {A} e.

(** ** DedupStore *)

Module DedupStore.

(** The contents of the database file. *)
Definition t : Type := list Row.

(** [_init_db]: CREATE TABLE IF NOT EXISTS keeps an existing table, so
    opening a store on a file yields the rows the file holds. *)
Definition _init_db (file : t) : t := file.

(** A new file holds no table; it is created empty. *)
Definition fresh : t := [].

Definition has_key (k : Key) (r : Row) : bool := bool_decide (row_key r = k).

(** The number of rows with key [k]. *)
Definition count_key (k : Key) (db : t) : nat :=
  length (List.filter (has_key k) db).
#[global] Arguments count_key : simpl never.

(** [is_duplicate]:
    SELECT 1 FROM processed_events WHERE topic = ? AND event_id = ?,
    then [fetchone() is not None]. *)
Definition is_duplicate (db : t) (topic event_id : string) : bool :=
  match List.filter (has_key (topic, event_id)) db with
  | [] => false
  | _ :: _ => true
  end.

(** The INSERT statement as the engine executes it: a failure of the
    persistence layer ([fault]) is raised as it is; otherwise the primary
    key is checked and either the row is appended or [IntegrityError] is
    raised. *)
Definition sql_insert (fault : option sqlite_error) (db : t) (r : Row)
  : sqlite_error + t :=
  match fault with
  | Some e => inl e
  | None =>
      if is_duplicate db (row_topic r) (row_event_id r)
      then inl IntegrityError
      else inr (db ++ [r])
  end.

(** [mark_processed]: INSERT and commit, [True]; on
    [sqlite3.IntegrityError], [False]; any other exception leaves the
    [try] and the connection's context manager rolls back. [now] is
    [datetime.now(timezone.utc).isoformat()]. *)
Definition mark_processed (fault : option sqlite_error) (db : t)
    (topic event_id timestamp now : string) : t * outcome bool :=
  match sql_insert fault db (topic, event_id, timestamp, now) with
  | inr db' => (db', Return true)
  | inl IntegrityError => (db, Return false)
  | inl e => (db, Raise e)
  end.

(** SQLite compares TEXT values bytewise (BINARY collation). *)
Definition text_le (a b : string) : bool := String.leb a b.

(** [r1] may precede [r2] under ORDER BY processed_at DESC. *)
Definition desc (r1 r2 : Row) : Prop :=
  text_le (row_processed_at r2) (row_processed_at r1) = true.

(** Insertion of [r] into a list in descending order, before the first
    row that is not greater. *)
Fixpoint insert_desc (r : Row) (l : list Row) : list Row :=
  match l with
  | [] => [r]
  | x :: l' =>
      if text_le (row_processed_at x) (row_processed_at r)
      then r :: x :: l'
      else x :: insert_desc r l'
  end.

(** ORDER BY processed_at DESC. SQL leaves the order of rows with equal
    [processed_at] open; this sort keeps them in rowid order. *)
Definition order_by_processed_at_desc (l : list Row) : list Row :=
  foldr insert_desc [] l.

(** Python's truth value of an [Optional[str]]: [None] and the empty
    string are false. *)
Definition truthy (topic : option string) : bool :=
  match topic with
  | None => false
  | Some s => negb (bool_decide (s = ""%string))
  end.

(** WHERE topic = ? *)
Definition topic_is (tp : string) (r : Row) : bool :=
  bool_decide (row_topic r = tp).

(** [get_processed_events]: [if topic:] selects the filtered query. *)
Definition get_processed_events (db : t) (topic : option string)
  : list Row :=
  if truthy topic
  then order_by_processed_at_desc
         (List.filter (topic_is (default ""%string topic)) db)
  else order_by_processed_at_desc db.

(** SELECT topic, COUNT( * ) ... GROUP BY topic, read into a dict. *)
Fixpoint bump (tp : string) (d : list (string * nat)) : list (string * nat) :=
  match d with
  | [] => [(tp, 1)]
  | (k, n) :: d' => if bool_decide (k = tp) then (k, S n) :: d'
                    else (k, n) :: bump tp d'
  end.

Definition topic_counts (db : t) : list (string * nat) :=
  foldl (fun d r => bump (row_topic r) d) [] db.

Record Stats := mkStats {
  total_unique : nat;
  topics : list (string * nat)
}.

(** [get_stats]. *)
Definition get_stats (db : t) : Stats :=
  {| total_unique := length db; topics := topic_counts db |}.

(** [clear]: DELETE FROM processed_events. *)
Definition clear (db : t) : t := [].

(** [close]: [pass]. *)
Definition close (db : t) : t := db.

(** A sequence of [mark_processed] calls, none of which meets a failure
    of the persistence layer; a call is given by the row it attempts to
    insert. The result lists the key and the outcome of every call. *)
Fixpoint mark_all (db : t) (calls : list Row)
  : t * list (Key * outcome bool) :=
  match calls with
  | [] => (db, [])
  | c :: calls' =>
      let '(db', r) :=
        mark_processed None db (row_topic c) (row_event_id c)
                       (row_timestamp c) (row_processed_at c) in
      let '(db'', rs) := mark_all db' calls' in
      (db'', (row_key c, r) :: rs)
  end.

Definition returned_true (k : Key) (x : Key * outcome bool) : bool :=
  bool_decide (x.1 = k) &&
  match x.2 with Return true => true | _ => false end.

(** The primary key constraint as a property of the table. *)
Definition pk_unique (db : t) : Prop := forall k, count_key k db <= 1.

End DedupStore.

(** ** EventAggregator *)

Module PublishResult.
(** The dict that [publish] returns. *)
Record t := mk {
  accepted : nat;
  rejected : nat;
  duplicates_immediate : nat
}.
Definition zero : t := mk 0 0 0.
End PublishResult.

Module StatsResponse.
(** [models.StatsResponse]. *)
Record t := mk {
  received : nat;
  unique_processed : nat;
  duplicate_dropped : nat;
  topics : list (string * nat);
  uptime : Q
}.
End StatsResponse.

Module EventDict.
(** The dicts that [get_events] returns. *)
Record t := mk {
  topic : string;
  event_id : string;
  timestamp : string;
  processed_at : string
}.
End EventDict.

(** The fields of an [EventAggregator] instance. [self.dedup_store] is a
    reference to the store, which lives in the [World] below; [queue] is the
    content of the unbounded [asyncio.Queue]; [consumer_tasks] holds handles
    of tasks of the event loop. *)
Record EventAggregator := mkAgg {
  queue : list Event;
  received : nat;
  unique_processed : nat;
  duplicate_dropped : nat;
  start_time : Q;
  running : bool;
  consumer_tasks : list nat
}.

(** [__init__]; [now] is the reading of [time.time()]. *)
Definition init (now : Q) : EventAggregator :=
  {| queue := []; received := 0; unique_processed := 0;
     duplicate_dropped := 0; start_time := now; running := false;
     consumer_tasks := [] |}.

Definition set_queue (q : list Event) (a : EventAggregator) :=
  mkAgg q (received a) (unique_processed a) (duplicate_dropped a)
        (start_time a) (running a) (consumer_tasks a).
Definition incr_received (a : EventAggregator) :=
  mkAgg (queue a) (S (received a)) (unique_processed a) (duplicate_dropped a)
        (start_time a) (running a) (consumer_tasks a).
Definition incr_unique_processed (a : EventAggregator) :=
  mkAgg (queue a) (received a) (S (unique_processed a)) (duplicate_dropped a)
        (start_time a) (running a) (consumer_tasks a).
Definition incr_duplicate_dropped (a : EventAggregator) :=
  mkAgg (queue a) (received a) (unique_processed a) (S (duplicate_dropped a))
        (start_time a) (running a) (consumer_tasks a).
Definition set_running (b : bool) (a : EventAggregator) :=
  mkAgg (queue a) (received a) (unique_processed a) (duplicate_dropped a)
        (start_time a) b (consumer_tasks a).
Definition set_consumer_tasks (ts : list nat) (a : EventAggregator) :=
  mkAgg (queue a) (received a) (unique_processed a) (duplicate_dropped a)
        (start_time a) (running a) ts.

(** One iteration of the [for] loop of [publish], on the aggregator and the
    result dict. [await self.queue.put(event)] on an unbounded queue puts the
    event at once, without suspending. *)
Definition publish_event (db : DedupStore.t)
    (st : EventAggregator * PublishResult.t) (event : Event)
  : EventAggregator * PublishResult.t :=
  let a := incr_received st.1 in
  let result := st.2 in
  if DedupStore.is_duplicate db (topic event) (event_id event)
  then (incr_duplicate_dropped a,
        PublishResult.mk (PublishResult.accepted result)
                         (S (PublishResult.rejected result))
                         (S (PublishResult.duplicates_immediate result)))
  else (set_queue (queue a ++ [event]) a,
        PublishResult.mk (S (PublishResult.accepted result))
                         (PublishResult.rejected result)
                         (PublishResult.duplicates_immediate result)).

(** [publish]. *)
Definition publish (db : DedupStore.t) (a : EventAggregator)
    (events : list Event) : EventAggregator * PublishResult.t :=
  foldl (publish_event db) (a, PublishResult.zero) events.

(** [_process_event], up to its suspension in [asyncio.sleep]: the store,
    the aggregator, and [was_new] or the exception that leaves the call. *)
Definition _process_event (fault : option sqlite_error) (now : string)
    (db : DedupStore.t) (a : EventAggregator) (event : Event)
  : DedupStore.t * EventAggregator * outcome bool :=
  match DedupStore.mark_processed fault db
          (topic event) (event_id event) (timestamp event) now with
  | (db', Return true) => (db', incr_unique_processed a, Return true)
  | (db', Return false) => (db', incr_duplicate_dropped a, Return false)
  | (db', Raise e) => (db', a, Raise e)
  end.

(** [get_stats]; [now] is the reading of [time.time()]. *)
Definition get_stats (db : DedupStore.t) (a : EventAggregator) (now : Q)
  : StatsResponse.t :=
  let store_stats := DedupStore.get_stats db in
  let uptime := (now - start_time a)%Q in
  StatsResponse.mk (received a) (unique_processed a) (duplicate_dropped a)
                   (DedupStore.topics store_stats) uptime.

(** The dict built from the tuple [e]: [e[0]] to [e[3]]. *)
Definition to_dict (e : Row) : EventDict.t :=
  EventDict.mk (row_topic e) (row_event_id e)
               (row_timestamp e) (row_processed_at e).

(** [get_events]. *)
Definition get_events (db : DedupStore.t) (topic : option string)
  : list EventDict.t :=
  let events := DedupStore.get_processed_events db topic in
  map to_dict events.

(** ** The worker tasks and the event loop *)

(** Where a task running [_consume_events] stands:
    - [Waiting]: at the head of the [while] loop or suspended in
      [wait_for(self.queue.get(), timeout=0.1)];
    - [Holding e]: [queue.get()] has delivered [e] and [_process_event] has
      not yet run (the event is in flight);
    - [Sleeping]: suspended in [asyncio.sleep] inside [_process_event],
      after the store and the counter were updated;
    - [Finished]: the loop was left. *)
Inductive task_state :=
  | Waiting
  | Holding (e : Event)
  | Sleeping
  | Finished.

Record Task := mkTask {
  worker_id : nat;
  state : task_state
}.

(** The store, the aggregator that is alive, and the tasks of the event
    loop, a handle being the position of a task in the list. *)
Record World := mkWorld {
  store : DedupStore.t;
  agg : EventAggregator;
  tasks : list Task
}.

(** A new aggregator on the store [db], as
    [EventAggregator(DedupStore(db_path))] builds it. *)
Definition boot (db : DedupStore.t) (now : Q) : World :=
  mkWorld (DedupStore._init_db db) (init now) [].

(** [start]: [asyncio.create_task] for [worker_id] 0 to 4. *)
Definition start (w : World) : World :=
  if negb (running (agg w))
  then
    let spawned := map (fun i => mkTask i Waiting) (seq 0 5) in
    mkWorld (store w)
            (set_consumer_tasks (seq (length (tasks w)) (length spawned))
               (set_running true (agg w)))
            (tasks w ++ spawned)
  else w.

Definition is_finished (s : task_state) : bool :=
  match s with Finished => true | _ => false end.

Definition is_holding (s : task_state) : bool :=
  match s with Holding _ => true | _ => false end.

(** Whether [asyncio.gather] over the handles [ids] is complete. *)
Definition gather_done (ts : list Task) (ids : list nat) : bool :=
  forallb (fun i => match ts !! i with
                    | Some t => is_finished (state t)
                    | None => true
                    end) ids.

Inductive stop_status :=
  | StopReturned
  | StopAwaitingGather.

(** [stop]: the flag is cleared; with no consumer task the call returns at
    once, otherwise it awaits the gathered tasks. *)
Definition stop (w : World) : World * stop_status :=
  let w' := mkWorld (store w) (set_running false (agg w)) (tasks w) in
  match consumer_tasks (agg w) with
  | [] => (w', StopReturned)
  | ids => (w', if gather_done (tasks w) ids then StopReturned
                else StopAwaitingGather)
  end.

Definition set_task (i : nat) (s : task_state) (w : World) : World :=
  match tasks w !! i with
  | Some t => mkWorld (store w) (agg w)
                      (<[i := mkTask (worker_id t) s]> (tasks w))
  | None => w
  end.

Definition task_state_at (w : World) (i : nat) : option task_state :=
  state <$> tasks w !! i.

(** Drained: the queue is empty and no task holds an event. *)
Definition drained (w : World) : bool :=
  match queue (agg w) with
  | [] => forallb (fun t => negb (is_holding (state t))) (tasks w)
  | _ :: _ => false
  end.

(** How the event loop resumes a task that runs [_consume_events]. *)
Inductive resume :=
  | RGet
  | RTimeout
  | RProcess (now : string) (fault : option sqlite_error)
  | RWake
  | RExit.

(** What a step lets one observe (return values and log lines). *)
Inductive obs :=
  | OSilent
  | OPublished (r : PublishResult.t)
  | OProcessed (e : Event) (was_new : bool)
  | OError (e : Event) (err : sqlite_error).

(** [_consume_events], one resumption of task [i] at a time:
    - [RGet]: [queue.get()] delivers the head of the queue;
    - [RTimeout]: the queue is empty, [wait_for] raises [TimeoutError],
      [continue];
    - [RProcess]: [_process_event] on the event held; an exception is caught
      by [except Exception], logged, and the loop goes on;
    - [RWake]: the sleep ends, [task_done()], back to the head of the loop;
    - [RExit]: the loop condition [self.running or not self.queue.empty()]
      is false.
    [queue.task_done()] maintains the join counter of the queue, which
    nothing reads. *)
Definition _consume_events (i : nat) (r : resume) (w : World)
  : option (World * obs) :=
  match r with
  | RGet =>
      match task_state_at w i, queue (agg w) with
      | Some Waiting, e :: q =>
          Some (set_task i (Holding e)
                  (mkWorld (store w) (set_queue q (agg w)) (tasks w)),
                OSilent)
      | _, _ => None
      end
  | RTimeout =>
      match task_state_at w i, queue (agg w) with
      | Some Waiting, [] => Some (w, OSilent)
      | _, _ => None
      end
  | RProcess now fault =>
      match task_state_at w i with
      | Some (Holding e) =>
          match _process_event fault now (store w) (agg w) e with
          | (db, a, Return true) =>
              Some (set_task i Sleeping (mkWorld db a (tasks w)),
                    OProcessed e true)
          | (db, a, Return false) =>
              Some (set_task i Waiting (mkWorld db a (tasks w)),
                    OProcessed e false)
          | (db, a, Raise err) =>
              Some (set_task i Waiting (mkWorld db a (tasks w)),
                    OError e err)
          end
      | _ => None
      end
  | RWake =>
      match task_state_at w i with
      | Some Sleeping => Some (set_task i Waiting w, OSilent)
      | _ => None
      end
  | RExit =>
      match task_state_at w i with
      | Some Waiting =>
          if running (agg w) || negb (bool_decide (queue (agg w) = []))
          then None
          else Some (set_task i Finished w, OSilent)
      | _ => None
      end
  end.

(** What the environment and the scheduler can do next: a call of the
    public surface, a resumption of task [i], or the end of the process
    followed by a new aggregator on the same database file, either after a
    shutdown that has drained ([LReopen]) or at any moment ([LCrash], which
    loses the queue and the events in flight). *)
Inductive label :=
  | LStart
  | LStop
  | LPublish (events : list Event)
  | LGet (i : nat)
  | LTimeout (i : nat)
  | LProcess (i : nat) (now : string) (fault : option sqlite_error)
  | LWake (i : nat)
  | LExit (i : nat)
  | LReopen (now : Q)
  | LCrash (now : Q).

(** One atomic step of the system. *)
Definition step (w : World) (l : label) : option (World * obs) :=
  match l with
  | LStart => Some (start w, OSilent)
  | LStop => Some ((stop w).1, OSilent)
  | LPublish events =>
      let '(a, r) := publish (store w) (agg w) events in
      Some (mkWorld (store w) a (tasks w), OPublished r)
  | LGet i => _consume_events i RGet w
  | LTimeout i => _consume_events i RTimeout w
  | LProcess i now fault => _consume_events i (RProcess now fault) w
  | LWake i => _consume_events i RWake w
  | LExit i => _consume_events i RExit w
  | LReopen now =>
      if drained w then Some (boot (store w) now, OSilent) else None
  | LCrash now => Some (boot (store w) now, OSilent)
  end.

(** A run: the steps of a trace one after the other, with what they let
    one observe. *)
Fixpoint run (w : World) (tr : list label) : option (World * list obs) :=
  match tr with
  | [] => Some (w, [])
  | l :: tr' =>
      match step w l with
      | Some (w', o) =>
          match run w' tr' with
          | Some (w'', os) => Some (w'', o :: os)
          | None => None
          end
      | None => None
      end
  end.

(** No failure of the persistence layer along the trace. *)
Definition fault_free (tr : list label) : bool :=
  forallb (fun l => match l with
                    | LProcess _ _ (Some _) => false
                    | _ => true
                    end) tr.

(** No end of the process with events accepted and not processed. *)
Definition orderly (tr : list label) : bool :=
  forallb (fun l => match l with
                    | LCrash _ => false
                    | _ => true
                    end) tr.

Definition key_eqb (k : Key) (e : Event) : bool :=
  bool_decide (event_key e = k).

(** How many events with key [k] the trace publishes. *)
Definition published (k : Key) (tr : list label) : nat :=
  list_sum (map (fun l => match l with
                          | LPublish events =>
                              length (List.filter (key_eqb k) events)
                          | _ => 0
                          end) tr).

(** How many times [unique_processed] was incremented for an event with
    key [k]. *)
Definition unique_increments (k : Key) (os : list obs) : nat :=
  length (List.filter (fun o => match o with
                                | OProcessed e true => key_eqb k e
                                | _ => false
                                end) os).

(** The fast-path check of [publish] on the event [e]. *)
Definition known (db : DedupStore.t) (e : Event) : bool :=
  DedupStore.is_duplicate db (topic e) (event_id e).

(** The number of tasks for which [f] holds, as a sum. *)
Definition tally (f : Task -> nat) (ts : list Task) : nat :=
  list_sum (map f ts).
#[global] Arguments tally : simpl never.

(** The events in flight: popped from the queue, not yet processed. *)
Definition flying (t : Task) : nat :=
  if is_holding (state t) then 1 else 0.

Definition flying_key (k : Key) (t : Task) : nat :=
  match state t with
  | Holding e => if key_eqb k e then 1 else 0
  | _ => 0
  end.

Definition live (t : Task) : nat :=
  if is_finished (state t) then 0 else 1.

(** The events accepted and not yet processed. *)
Definition backlog (w : World) : nat :=
  length (queue (agg w)) + tally flying (tasks w).

(** Those of them that have key [k]. *)
Definition pending (k : Key) (w : World) : nat :=
  length (List.filter (key_eqb k) (queue (agg w)))
  + tally (flying_key k) (tasks w).

(** Once an event with key [k] has been published, the key is in the
    store or an event with the key is still to be processed. *)
Definition settled_or_pending (k : Key) (w : World) : Prop :=
  1 <= DedupStore.count_key k (store w) \/ 1 <= pending k w.

(** The counters balance once the backlog is counted in. *)
Definition balanced (w : World) : Prop :=
  received (agg w)
  = unique_processed (agg w) + duplicate_dropped (agg w) + backlog w.

(** The reading of the specification for the uptime: an aggregator built
    at [t_init] and started at [t_start] reports, at [t_now], the time
    elapsed since [t_start], up to a tolerance of one second. [start] takes
    no reading of the clock, so [t_start] does not reach it. *)
Definition uptime_counts_from_start : Prop :=
  forall (db : DedupStore.t) (t_init t_start t_now : Q),
    (t_init <= t_start)%Q -> (t_start <= t_now)%Q ->
    let w := start (boot db t_init) in
    let uptime := StatsResponse.uptime (get_stats (store w) (agg w) t_now) in
    (t_now - t_start <= uptime)%Q /\ (uptime < t_now - t_start + 1)%Q.

Definition is_restart (l : label) : bool :=
  match l with LReopen _ | LCrash _ => true | _ => false end.

Definition is_start (l : label) : bool :=
  match l with LStart => true | _ => false end.

(** The steps observed as the processing of a new event. *)
Definition is_new (o : obs) : bool :=
  match o with OProcessed _ true => true | _ => false end.

(** The processing failures that a run logs. *)
Definition is_error (o : obs) : bool :=
  match o with OError _ _ => true | _ => false end.

(** ** Readings of the counters and of the dicts *)

(** The tuple that a dict of [get_events] stands for, read off its four
    entries. *)
Definition of_dict (d : EventDict.t) : Row :=
  (EventDict.topic d, EventDict.event_id d, EventDict.timestamp d,
   EventDict.processed_at d).

(** [d1] may precede [d2] in descending order of ["processed_at"]. *)
Definition dict_desc (d1 d2 : EventDict.t) : Prop :=
  DedupStore.text_le (EventDict.processed_at d2) (EventDict.processed_at d1)
  = true.

(** Whether the step [l] from [w] is the processing of an event with
    key [k]. *)
Definition processes_key (k : Key) (w : World) (l : label) : bool :=
  match l with
  | LProcess i _ _ =>
      match task_state_at w i with
      | Some (Holding e) => key_eqb k e
      | _ => false
      end
  | _ => false
  end.

(** By how much the counter [unique_processed] grows, over the run of
    [tr] from [w], in the steps that process an event with key [k]. *)
Fixpoint counter_increments (k : Key) (w : World) (tr : list label) : nat :=
  match tr with
  | [] => 0
  | l :: tr' =>
      match step w l with
      | Some (w', _) =>
          (if processes_key k w l
           then unique_processed (agg w') - unique_processed (agg w)
           else 0)
          + counter_increments k w' tr'
      | None => 0
      end
  end.

(** The reading of the specification for idempotency, whatever the
    persistence layer does: once drained, one row for a key that was
    published and one increment of the counter for it. *)
Definition idempotent_whatever_the_store_does : Prop :=
  forall (db : DedupStore.t) (t0 : Q) (k : Key) (tr : list label)
         (w : World) (os : list obs),
    DedupStore.count_key k db = 0 ->
    run (boot db t0) tr = Some (w, os) ->
    orderly tr = true ->
    1 <= published k tr ->
    drained w = true ->
    DedupStore.count_key k (store w) = 1
    /\ counter_increments k (boot db t0) tr = 1.


(** ** Sequences of store operations, dicts and schedules *)

(** The operations that change the table: a [mark_processed] call, given
    by the failure it meets and the row it attempts to insert, and
    [clear]. *)
Inductive store_op :=
  | OpMark (fault : option sqlite_error) (r : Row)
  | OpClear.

Definition apply_op (db : DedupStore.t) (op : store_op) : DedupStore.t :=
  match op with
  | OpMark fault r =>
      (DedupStore.mark_processed fault db (row_topic r) (row_event_id r)
         (row_timestamp r) (row_processed_at r)).1
  | OpClear => DedupStore.clear db
  end.

Definition apply_ops (db : DedupStore.t) (ops : list store_op)
  : DedupStore.t :=
  foldl apply_op db ops.

(** [d.get(tp)] on the dict of topic counts. *)
Fixpoint dict_get (tp : string) (d : list (string * nat)) : option nat :=
  match d with
  | [] => None
  | (k, n) :: d' => if bool_decide (k = tp) then Some n else dict_get tp d'
  end.

(** The number of rows of topic [tp]. *)
Definition count_topic (tp : string) (db : DedupStore.t) : nat :=
  length (List.filter (DedupStore.topic_is tp) db).
#[global] Arguments count_topic : simpl never.

(** The events that the trace hands to [publish], in order. *)
Definition published_events (tr : list label) : list Event :=
  flat_map (fun l => match l with
                     | LPublish events => events
                     | _ => []
                     end) tr.

(** The schedule on which task [i] alone empties the queue [q]: for each
    event a delivery and the processing, and the end of the sleep when the
    event is new for the store. *)
Fixpoint drain_schedule (i : nat) (now : string) (db : DedupStore.t)
    (q : list Event) : list label :=
  match q with
  | [] => []
  | e :: q' =>
      if known db e
      then LGet i :: LProcess i now None :: drain_schedule i now db q'
      else LGet i :: LProcess i now None :: LWake i
           :: drain_schedule i now
                (db ++ [(topic e, event_id e, timestamp e, now)]) q'
  end.

(** Whether a label is a call of [publish] or [stop]. *)
Definition is_call (l : label) : bool :=
  match l with LPublish _ | LStop => true | _ => false end.

(** The key of a dict of [get_events]. *)
Definition dict_key (d : EventDict.t) : Key :=
  (EventDict.topic d, EventDict.event_id d).

(** The row [r] records the event [e]: its topic, event_id and
    timestamp. *)
Definition records (e : Event) (r : Row) : Prop :=
  row_topic r = topic e /\ row_event_id r = event_id e
  /\ row_timestamp r = timestamp e.

(** Every event queued or in flight is one of [evs], and every row is a
    row of [db0] or records one of [evs]. *)
Definition traceable (db0 : DedupStore.t) (evs : list Event) (w : World)
  : Prop :=
  Forall (fun e => e ∈ evs) (queue (agg w))
  /\ Forall (fun t => forall e, state t = Holding e -> e ∈ evs) (tasks w)
  /\ Forall (fun r => r ∈ db0 \/ exists e, e ∈ evs /\ records e r) (store w).

(** The schedule of a shutdown: [stop] is called, the first task empties
    the queue, and every task finds the loop condition false. *)
Definition shutdown_schedule (now : string) (w : World) : list label :=
  LStop :: drain_schedule 0 now (store w) (queue (agg w))
        ++ map LExit (seq 0 (length (tasks w))).

(** * Properties *)

(** ** The store *)

Section Store.
Import DedupStore.

Lemma count_key_app k (db1 db2 : t) :
  count_key k (db1 ++ db2) = count_key k db1 + count_key k db2.
Proof. unfold count_key. now rewrite List.filter_app, length_app. Qed.

Lemma is_duplicate_count db tp id :
  is_duplicate db tp id = false <-> count_key (tp, id) db = 0.
Proof.
  unfold is_duplicate, count_key.
  destruct (List.filter _ db); simpl; split; intros; congruence || lia.
Qed.

Lemma is_duplicate_true_count db tp id :
  is_duplicate db tp id = true <-> 1 <= count_key (tp, id) db.
Proof.
  unfold is_duplicate, count_key.
  destruct (List.filter _ db); simpl; split; intros; congruence || lia.
Qed.

Lemma mark_processed_new db tp id ts now :
  is_duplicate db tp id = false ->
  mark_processed None db tp id ts now
  = (db ++ [(tp, id, ts, now)], Return true).
Proof.
  intros H. unfold mark_processed, sql_insert. cbn. now rewrite H.
Qed.

Lemma mark_processed_dup db tp id ts now :
  is_duplicate db tp id = true ->
  mark_processed None db tp id ts now = (db, Return false).
Proof.
  intros H. unfold mark_processed, sql_insert. cbn. now rewrite H.
Qed.

Lemma count_key_singleton k (r : Row) :
  count_key k [r] = if bool_decide (row_key r = k) then 1 else 0.
Proof. unfold count_key, has_key. cbn. now case_bool_decide. Qed.

(** After a call without failure the key of the call is in the store,
    and the other keys are as before. *)
Lemma mark_processed_count db tp id ts now k :
  count_key k (mark_processed None db tp id ts now).1
  = if bool_decide ((tp, id) = k)
    then (if is_duplicate db tp id then count_key k db else 1)
    else count_key k db.
Proof.
  destruct (is_duplicate db tp id) eqn:Hd.
  - rewrite mark_processed_dup by done. now case_bool_decide.
  - rewrite mark_processed_new by done. cbn [fst].
    rewrite count_key_app, count_key_singleton. unfold row_key. cbn.
    apply is_duplicate_count in Hd.
    repeat case_bool_decide; subst; try done; lia.
Qed.

(** The primary key is kept by every call, whatever the failure. *)
Lemma mark_processed_pk fault db tp id ts now :
  pk_unique db -> pk_unique (mark_processed fault db tp id ts now).1.
Proof.
  intros Hpk k. destruct fault as [e|].
  - unfold mark_processed, sql_insert. destruct e; cbn; apply Hpk.
  - rewrite mark_processed_count. specialize (Hpk k).
    case_bool_decide; [destruct (is_duplicate db tp id)|]; lia.
Qed.

Lemma mark_all_trues k : forall calls db,
  length (List.filter (returned_true k) (mark_all db calls).2)
  + count_key k db
  = count_key k (mark_all db calls).1.
Proof.
  induction calls as [|c calls IH]; intros db; cbn; [done|].
  destruct c as [[[tp id] ts] now]. cbn.
  pose proof (mark_processed_count db tp id ts now k) as Hc.
  destruct (is_duplicate db tp id) eqn:Hd.
  - rewrite mark_processed_dup in * by done.
    specialize (IH db). destruct (mark_all db calls) as [db'' rs]. cbn in *.
    unfold returned_true at 1. cbn. rewrite andb_false_r. exact IH.
  - rewrite mark_processed_new in * by done. cbn in Hc.
    specialize (IH (db ++ [(tp, id, ts, now)])).
    destruct (mark_all _ calls) as [db'' rs]. cbn in *.
    unfold returned_true at 1. cbn. unfold row_key. cbn.
    rewrite andb_true_r. rewrite Hc in IH.
    apply is_duplicate_count in Hd.
    repeat case_bool_decide; cbn; subst; try done; lia.
Qed.

Lemma mark_all_count k : forall calls db,
  count_key k db <= 1 ->
  count_key k (mark_all db calls).1
  = if bool_decide (count_key k db = 0)
    then (if bool_decide (List.filter (has_key k) calls = []) then 0 else 1)
    else 1.
Proof.
  induction calls as [|c calls IH]; intros db Hle; cbn.
  - repeat case_bool_decide; try done; lia.
  - destruct c as [[[tp id] ts] now]. cbn.
    pose proof (mark_processed_count db tp id ts now k) as Hc.
    destruct (mark_processed None db tp id ts now) as [db' r] eqn:Hm.
    cbn in Hc. specialize (IH db').
    destruct (mark_all db' calls) as [db'' rs]. cbn in *.
    unfold has_key at 1, row_key. cbn.
    destruct (is_duplicate db tp id) eqn:Hd.
    + apply is_duplicate_true_count in Hd.
      repeat case_bool_decide; subst; try done; rewrite IH by lia;
        repeat case_bool_decide; try done; lia.
    + apply is_duplicate_count in Hd.
      repeat case_bool_decide; subst; try done; rewrite IH by lia;
        repeat case_bool_decide; try done; lia.
Qed.

(** *** Ordering of the query results *)

Lemma text_le_total a b : text_le a b = false -> text_le b a = true.
Proof.
  unfold text_le. destruct (String.leb_total a b); congruence.
Qed.

Lemma text_le_trans a b c :
  text_le a b = true -> text_le b c = true -> text_le a c = true.
Proof.
  unfold text_le, String.leb. intros Hab Hbc.
  destruct (String.compare a b) eqn:Eab; [| |discriminate].
  - apply String.compare_eq_iff in Eab. now subst.
  - destruct (String.compare b c) eqn:Ebc; [| |discriminate].
    + apply String.compare_eq_iff in Ebc. subst. now rewrite Eab.
    + apply OrderedTypeEx.String_as_OT.cmp_lt in Eab, Ebc.
      pose proof (OrderedTypeEx.String_as_OT.lt_trans _ _ _ Eab Ebc) as H.
      apply OrderedTypeEx.String_as_OT.cmp_lt in H.
      unfold OrderedTypeEx.String_as_OT.cmp in H. now rewrite H.
Qed.

Lemma desc_trans r1 r2 r3 : desc r1 r2 -> desc r2 r3 -> desc r1 r3.
Proof. unfold desc. eauto using text_le_trans. Qed.

Lemma insert_desc_perm r l : Permutation (insert_desc r l) (r :: l).
Proof.
  induction l as [|x l IH]; cbn; [done|].
  destruct (text_le _ _); [done|].
  rewrite IH. apply perm_swap.
Qed.

Lemma insert_desc_sorted r l :
  StronglySorted desc l -> StronglySorted desc (insert_desc r l).
Proof.
  induction 1 as [|x l Hs IH Hx]; cbn.
  - repeat constructor.
  - destruct (text_le (row_processed_at x) (row_processed_at r)) eqn:E.
    + constructor; [now constructor|].
      constructor; [exact E|].
      eapply Forall_impl; [exact Hx|].
      intros y Hy. eapply desc_trans; [exact E|exact Hy].
    + constructor; [exact IH|].
      rewrite insert_desc_perm. constructor; [|exact Hx].
      now apply text_le_total.
Qed.

Lemma order_by_perm l : Permutation (order_by_processed_at_desc l) l.
Proof.
  induction l as [|r l IH]; cbn; [done|].
  rewrite insert_desc_perm. now constructor.
Qed.

Lemma order_by_sorted l : StronglySorted desc (order_by_processed_at_desc l).
Proof.
  induction l as [|r l IH]; cbn; [constructor|].
  now apply insert_desc_sorted.
Qed.

(** *** Claims about the store *)

(** C2. Without a failure of the persistence layer, [mark_processed]
    returns [True] exactly when no row with the key exists before the
    call, and then appends the row; it returns [False], raising nothing
    and leaving the table as it is, when a row with the key exists. In
    every sequence of calls (on any keys) on a store that does not hold the
    key, in which the key occurs at least once, exactly one call on the key
    returns [True]. *)
Theorem mark_processed_true_iff_first db tp id ts now :
  (exists b : bool,
      mark_processed None db tp id ts now
      = ((if b then db ++ [(tp, id, ts, now)] else db), Return b)
      /\ (b = true <-> count_key (tp, id) db = 0))
  /\ (forall calls,
        count_key (tp, id) db = 0 ->
        List.filter (has_key (tp, id)) calls <> [] ->
        length (List.filter (returned_true (tp, id)) (mark_all db calls).2)
        = 1).
Proof.
  split.
  - destruct (is_duplicate db tp id) eqn:Hd.
    + exists false. rewrite mark_processed_dup by done. split; [done|].
      apply is_duplicate_true_count in Hd. split; [done|lia].
    + exists true. rewrite mark_processed_new by done. split; [done|].
      apply is_duplicate_count in Hd. done.
  - intros calls H0 Hne.
    pose proof (mark_all_trues (tp, id) calls db) as Ht.
    rewrite mark_all_count in Ht by lia.
    rewrite !bool_decide_eq_true_2 in Ht by done.
    rewrite bool_decide_eq_false_2 in Ht by done. lia.
Qed.

Lemma mark_processed_true_iff_first_witness :
  length (List.filter (returned_true ("t", "e1")%string)
            (mark_all fresh
               [("t", "e1", "ts1", "now1"); ("u", "e1", "ts2", "now2");
                ("t", "e1", "ts3", "now3")]%string).2) = 1.
Proof.
  apply (proj2 (mark_processed_true_iff_first
                  fresh "t" "e1" "ts1" "now1")%string).
  - reflexivity.
  - vm_compute. discriminate.
Defined.

Lemma of_dict_to_dict (l : list Row) : map of_dict (map to_dict l) = l.
Proof.
  induction l as [|[[[tp id] ts] pa] l IH]; cbn; [done|]. now rewrite IH.
Qed.

Lemma to_dict_sorted (l : list Row) :
  StronglySorted desc l -> StronglySorted dict_desc (map to_dict l).
Proof.
  induction 1 as [|r l Hs IH Hr]; cbn; constructor; [exact IH|].
  clear - Hr. induction Hr as [|x l Hx _ IH]; cbn; constructor; auto.
Qed.

(** C4. For a non-empty topic, the query returns the rows of that topic
    and no others, each as often as the table holds it, in descending
    order of [processed_at]; without a topic it returns all rows in that
    order. [get_events] returns them as dicts: read back as tuples, its
    dicts are the rows of the topic (all rows without a topic), each once,
    they are in descending order of ["processed_at"], and the dict at each
    position carries the four columns of the row at that position. *)
Theorem get_events_filter_and_order db tp :
  (tp <> ""%string ->
     Permutation (get_processed_events db (Some tp))
                 (List.filter (topic_is tp) db)
     /\ StronglySorted desc (get_processed_events db (Some tp)))
  /\ Permutation (get_processed_events db None) db
  /\ StronglySorted desc (get_processed_events db None)
  /\ (forall topic,
        get_events db topic = map to_dict (get_processed_events db topic))
  /\ (tp <> ""%string ->
      Permutation (map of_dict (get_events db (Some tp)))
                  (List.filter (topic_is tp) db)
      /\ StronglySorted dict_desc (get_events db (Some tp))
      /\ Forall (fun d => EventDict.topic d = tp)
                (get_events db (Some tp)))
  /\ Permutation (map of_dict (get_events db None)) db
  /\ StronglySorted dict_desc (get_events db None)
  /\ (forall topic,
        Forall2 (fun d r =>
                   EventDict.topic d = row_topic r
                   /\ EventDict.event_id d = row_event_id r
                   /\ EventDict.timestamp d = row_timestamp r
                   /\ EventDict.processed_at d = row_processed_at r)
                (get_events db topic) (get_processed_events db topic)).
Proof.
  assert (Hsome : tp <> ""%string ->
            get_processed_events db (Some tp)
            = order_by_processed_at_desc (List.filter (topic_is tp) db)).
  { intros Hne. unfold get_processed_events, truthy.
    now rewrite bool_decide_eq_false_2. }
  split; [|split; [|split; [|split; [|split; [|split; [|split]]]]]].
  - intros Hne. rewrite (Hsome Hne).
    split; [apply order_by_perm|apply order_by_sorted].
  - apply order_by_perm.
  - apply order_by_sorted.
  - reflexivity.
  - intros Hne. unfold get_events. rewrite of_dict_to_dict, (Hsome Hne).
    split; [apply order_by_perm|].
    split; [apply to_dict_sorted, order_by_sorted|].
    apply Forall_forall. intros d Hd.
    change (d ∈ to_dict
                  <$> order_by_processed_at_desc
                        (List.filter (topic_is tp) db)) in Hd.
    apply list_elem_of_fmap in Hd as (r & -> & Hr).
    rewrite (order_by_perm _) in Hr.
    apply list_elem_of_In, List.filter_In in Hr as [_ Hr].
    unfold topic_is in Hr. cbn. now apply bool_decide_eq_true in Hr.
  - unfold get_events. rewrite of_dict_to_dict. apply order_by_perm.
  - unfold get_events. apply to_dict_sorted, order_by_sorted.
  - intros topic. unfold get_events.
    induction (get_processed_events db topic) as [|r l IH]; cbn;
      constructor; [|exact IH].
    repeat split.
Qed.

Lemma get_events_filter_and_order_witness :
  let db := [("a", "1", "ts", "2025-01-01T00:00:01");
             ("b", "1", "ts", "2025-01-01T00:00:02");
             ("a", "2", "ts", "2025-01-01T00:00:03")]%string in
  get_processed_events db (Some "a"%string)
  = [("a", "2", "ts", "2025-01-01T00:00:03");
     ("a", "1", "ts", "2025-01-01T00:00:01")]%string
  /\ get_events db (Some "a"%string)
     = [EventDict.mk "a" "2" "ts" "2025-01-01T00:00:03";
        EventDict.mk "a" "1" "ts" "2025-01-01T00:00:01"]
  /\ StronglySorted desc (get_processed_events db (Some "a"%string))
  /\ StronglySorted dict_desc (get_events db (Some "a"%string)).
Proof.
  intros db. split; [reflexivity|]. split; [reflexivity|].
  destruct (get_events_filter_and_order db "a"%string)
    as (H1 & _ & _ & _ & H5 & _).
  split.
  - apply H1. discriminate.
  - apply H5. discriminate.
Defined.


End Store.

(** ** publish *)

Section Publish.

Variable db : DedupStore.t.

Lemma publish_event_closed a r e :
  publish_event db (a, r) e
  = (mkAgg (queue a ++ List.filter (fun x => negb (known db x)) [e])
           (received a + 1) (unique_processed a)
           (duplicate_dropped a + length (List.filter (known db) [e]))
           (start_time a) (running a) (consumer_tasks a),
     PublishResult.mk
       (PublishResult.accepted r
        + length (List.filter (fun x => negb (known db x)) [e]))
       (PublishResult.rejected r + length (List.filter (known db) [e]))
       (PublishResult.duplicates_immediate r
        + length (List.filter (known db) [e]))).
Proof.
  unfold publish_event, known. cbn.
  destruct (DedupStore.is_duplicate db (topic e) (event_id e)); cbn;
    unfold incr_duplicate_dropped, set_queue, incr_received; cbn;
    rewrite ?app_nil_r; repeat f_equal; lia.
Qed.

Lemma publish_fold events : forall a r,
  foldl (publish_event db) (a, r) events
  = (mkAgg (queue a ++ List.filter (fun x => negb (known db x)) events)
           (received a + length events) (unique_processed a)
           (duplicate_dropped a + length (List.filter (known db) events))
           (start_time a) (running a) (consumer_tasks a),
     PublishResult.mk
       (PublishResult.accepted r
        + length (List.filter (fun x => negb (known db x)) events))
       (PublishResult.rejected r + length (List.filter (known db) events))
       (PublishResult.duplicates_immediate r
        + length (List.filter (known db) events))).
Proof.
  induction events as [|e events IH]; intros a r.
  - destruct a, r. cbn. rewrite app_nil_r. repeat f_equal; lia.
  - cbn [foldl]. rewrite publish_event_closed, IH. cbn [queue received
      unique_processed duplicate_dropped start_time running consumer_tasks
      PublishResult.accepted PublishResult.rejected
      PublishResult.duplicates_immediate].
    change (e :: events) with ([e] ++ events).
    rewrite !List.filter_app, !length_app, <- app_assoc.
    change (length [e]) with 1. f_equal; f_equal; lia.
Qed.

Lemma publish_closed a events :
  publish db a events
  = (mkAgg (queue a ++ List.filter (fun x => negb (known db x)) events)
           (received a + length events) (unique_processed a)
           (duplicate_dropped a + length (List.filter (known db) events))
           (start_time a) (running a) (consumer_tasks a),
     PublishResult.mk
       (length (List.filter (fun x => negb (known db x)) events))
       (length (List.filter (known db) events))
       (length (List.filter (known db) events))).
Proof. unfold publish. now rewrite publish_fold. Qed.

Lemma filter_split_length (f : Event -> bool) l :
  length (List.filter (fun x => negb (f x)) l) + length (List.filter f l)
  = length l.
Proof. induction l as [|x l IH]; cbn; [done|]. destruct (f x); cbn; lia. Qed.

Lemma publish_nil a : publish db a [] = (a, PublishResult.zero).
Proof. reflexivity. Qed.

(** C5. [publish] handles the events in the order given, one after the
    other: each one adds one to [received]; an event that the fast-path
    check knows adds one to [duplicates_immediate], to [rejected] and to
    [duplicate_dropped] and is not enqueued; any other event is put at the
    end of the queue and adds one to [accepted]. So the queue grows by the
    accepted events in their order, [duplicate_dropped] by the number of
    events that the store knows, [received] by the number of events, and
    the result counts the two kinds. The call is one step of the event
    loop, possible in every state, that touches neither the store, nor
    [unique_processed], nor any task: it waits for no processing. *)
Theorem publish_each_event_in_order a events :
  publish db a [] = (a, PublishResult.zero)
  /\ (forall e,
        publish db a (events ++ [e])
        = publish_event db (publish db a events) e)
  /\ (forall a1 r1 e,
        publish_event db (a1, r1) e
        = if DedupStore.is_duplicate db (topic e) (event_id e)
          then (incr_duplicate_dropped (incr_received a1),
                PublishResult.mk
                  (PublishResult.accepted r1)
                  (S (PublishResult.rejected r1))
                  (S (PublishResult.duplicates_immediate r1)))
          else (set_queue (queue a1 ++ [e]) (incr_received a1),
                PublishResult.mk
                  (S (PublishResult.accepted r1))
                  (PublishResult.rejected r1)
                  (PublishResult.duplicates_immediate r1)))
  /\ queue (publish db a events).1
     = queue a ++ List.filter (fun e => negb (known db e)) events
  /\ received (publish db a events).1 = received a + length events
  /\ unique_processed (publish db a events).1 = unique_processed a
  /\ (forall ts,
        step (mkWorld db a ts) (LPublish events)
        = Some (mkWorld db (publish db a events).1 ts,
                OPublished (publish db a events).2))
  /\ (forall a1 r1 e,
        publish_event db (a1, r1) e
        = if DedupStore.is_duplicate db (topic e) (event_id e)
          then (mkAgg (queue a1) (S (received a1)) (unique_processed a1)
                      (S (duplicate_dropped a1)) (start_time a1)
                      (running a1) (consumer_tasks a1),
                PublishResult.mk
                  (PublishResult.accepted r1)
                  (S (PublishResult.rejected r1))
                  (S (PublishResult.duplicates_immediate r1)))
          else (mkAgg (queue a1 ++ [e]) (S (received a1))
                      (unique_processed a1) (duplicate_dropped a1)
                      (start_time a1) (running a1) (consumer_tasks a1),
                PublishResult.mk
                  (S (PublishResult.accepted r1))
                  (PublishResult.rejected r1)
                  (PublishResult.duplicates_immediate r1)))
  /\ duplicate_dropped (publish db a events).1
     = duplicate_dropped a + length (List.filter (known db) events)
  /\ (publish db a events).2
     = PublishResult.mk
         (length (List.filter (fun e => negb (known db e)) events))
         (length (List.filter (known db) events))
         (length (List.filter (known db) events))
  /\ start_time (publish db a events).1 = start_time a
  /\ running (publish db a events).1 = running a
  /\ consumer_tasks (publish db a events).1 = consumer_tasks a.
Proof.
  split; [reflexivity|]. split.
  { intros e. unfold publish. now rewrite foldl_app. }
  split; [reflexivity|].
  split; [now rewrite publish_closed|].
  split; [now rewrite publish_closed|].
  split; [now rewrite publish_closed|].
  split.
  { intros ts. cbn. now destruct (publish db a events). }
  split.
  { intros a1 r1 e. unfold publish_event. cbn [fst snd].
    now destruct (DedupStore.is_duplicate db (topic e) (event_id e)). }
  rewrite publish_closed. repeat split.
Qed.

(** C10. The result of one [publish] call has
    [rejected = duplicates_immediate] and
    [accepted + rejected = len(events)], and [received] grows by
    [len(events)]; on the empty list the result is all zero and the
    aggregator is as before. *)
Theorem publish_result_accounting a events :
  PublishResult.rejected (publish db a events).2
  = PublishResult.duplicates_immediate (publish db a events).2
  /\ PublishResult.accepted (publish db a events).2
     + PublishResult.rejected (publish db a events).2
     = length events
  /\ received (publish db a events).1 = received a + length events
  /\ publish db a [] = (a, PublishResult.mk 0 0 0).
Proof.
  rewrite publish_closed. cbn. repeat split.
  apply filter_split_length.
Qed.

End Publish.

(** ** Steps of the event loop *)

(** Case analysis on an enabled step. *)
Ltac step_inv H :=
  unfold step, _consume_events in H;
  repeat match type of H with
         | context [match ?x with _ => _ end] =>
             let E := fresh "E" in destruct x eqn:E; try discriminate H
         | context [if ?x then _ else _] =>
             let E := fresh "E" in destruct x eqn:E; try discriminate H
         end;
  simplify_eq.

Section Frame.

Lemma stop_world w :
  (stop w).1 = mkWorld (store w) (set_running false (agg w)) (tasks w).
Proof. unfold stop. now destruct (consumer_tasks (agg w)). Qed.

Lemma set_task_store i s w : store (set_task i s w) = store w.
Proof. unfold set_task. now destruct (tasks w !! i). Qed.

Lemma set_task_agg i s w : agg (set_task i s w) = agg w.
Proof. unfold set_task. now destruct (tasks w !! i). Qed.

Lemma set_task_tasks i s w t :
  tasks w !! i = Some t ->
  tasks (set_task i s w) = <[i := mkTask (worker_id t) s]> (tasks w).
Proof. unfold set_task. now intros ->. Qed.

Lemma process_event_config fault now db a e db' a' r :
  _process_event fault now db a e = (db', a', r) ->
  queue a' = queue a /\ received a' = received a
  /\ start_time a' = start_time a /\ running a' = running a
  /\ consumer_tasks a' = consumer_tasks a.
Proof.
  unfold _process_event.
  destruct (DedupStore.mark_processed _ _ _ _ _ _) as [d [[|]|err]];
    intros [= <- <- <-]; done.
Qed.

End Frame.

(** The parts of the aggregator that [publish] and [_process_event] leave
    as they are. *)
Ltac frame_facts :=
  repeat match goal with
         | E : publish _ _ _ = _ |- _ =>
             rewrite publish_closed in E; inversion E; subst; clear E; cbn
         | E : _process_event _ _ _ _ _ = _ |- _ =>
             apply process_event_config in E; destruct_and!
         end.

Section Invariant.

(** [start_time] is written by [__init__] only. *)
Lemma step_start_time w l w' o :
  step w l = Some (w', o) -> is_restart l = false ->
  start_time (agg w') = start_time (agg w).
Proof.
  intros H Hl. destruct l; try discriminate Hl; step_inv H;
    rewrite ?set_task_agg, ?stop_world; cbn; try done; frame_facts;
    try congruence.
  unfold start. now destruct (running (agg w)).
Qed.

Lemma run_start_time tr : forall w w' os,
  run w tr = Some (w', os) -> existsb is_restart tr = false ->
  start_time (agg w') = start_time (agg w).
Proof.
  induction tr as [|l tr IH]; cbn; intros w w' os H Hr.
  - now inversion H.
  - apply orb_false_elim in Hr as [Hl Hr].
    destruct (step w l) as [[w1 o]|] eqn:Hs; [|discriminate].
    destruct (run w1 tr) as [[w2 os']|] eqn:Hrun; [|discriminate].
    inversion H; subst.
    rewrite (IH _ _ _ Hrun) by auto.
    eapply step_start_time; eauto.
Qed.

(** An aggregator that was never started has no consumer task and is not
    running. *)
Lemma step_never_started w l w' o :
  step w l = Some (w', o) -> is_start l = false ->
  running (agg w) = false /\ consumer_tasks (agg w) = [] ->
  running (agg w') = false /\ consumer_tasks (agg w') = [].
Proof.
  intros H Hl [Hr Hc]. destruct l; try discriminate Hl; step_inv H;
    rewrite ?set_task_agg, ?stop_world; cbn; try done; frame_facts;
    split; congruence.
Qed.

Lemma run_never_started tr : forall w w' os,
  run w tr = Some (w', os) -> existsb is_start tr = false ->
  running (agg w) = false /\ consumer_tasks (agg w) = [] ->
  running (agg w') = false /\ consumer_tasks (agg w') = [].
Proof.
  induction tr as [|l tr IH]; cbn; intros w w' os H Hr Hw.
  - now inversion H; subst.
  - apply orb_false_elim in Hr as [Hl Hr].
    destruct (step w l) as [[w1 o]|] eqn:Hs; [|discriminate].
    destruct (run w1 tr) as [[w2 os']|] eqn:Hrun; [|discriminate].
    inversion H; subst.
    eapply IH; eauto using step_never_started.
Qed.

End Invariant.

(** ** Lifecycle and uptime *)

Section Lifecycle.

Lemma stop_not_started w :
  running (agg w) = false -> consumer_tasks (agg w) = [] ->
  stop w = (w, StopReturned).
Proof.
  destruct w as [db [q r u d t0 b c] ts]. cbn. intros -> ->. reflexivity.
Qed.

Lemma start_running w : running (agg (start w)) = true.
Proof. unfold start. now destruct (running (agg w)) eqn:E. Qed.

Lemma tally_app f l1 l2 : tally f (l1 ++ l2) = tally f l1 + tally f l2.
Proof. unfold tally. now rewrite map_app, list_sum_app. Qed.

(** C8. [start] on a running aggregator changes nothing, so a second
    call is without effect; on an aggregator that is not running it sets
    the flag and creates exactly five tasks, with [worker_id] 0 to 4, at
    the head of their loops, whose handles make up [consumer_tasks];
    [stop] on an aggregator that was never started returns at once and
    changes nothing. *)
Theorem start_idempotent_stop_trivial :
  (forall w, running (agg w) = true -> start w = w)
  /\ (forall w, start (start w) = start w)
  /\ (forall w, running (agg w) = false ->
        running (agg (start w)) = true
        /\ tasks (start w)
           = tasks w ++ [mkTask 0 Waiting; mkTask 1 Waiting;
                         mkTask 2 Waiting; mkTask 3 Waiting;
                         mkTask 4 Waiting]
        /\ consumer_tasks (agg (start w)) = seq (length (tasks w)) 5
        /\ tally live (tasks (start w)) = tally live (tasks w) + 5)
  /\ (forall db now tr w os,
        run (boot db now) tr = Some (w, os) ->
        existsb is_start tr = false ->
        stop w = (w, StopReturned)).
Proof.
  repeat split.
  - intros w H. unfold start. now rewrite H.
  - intros w. unfold start at 1. now rewrite start_running.
  - unfold start. now rewrite H.
  - unfold start. now rewrite H.
  - unfold start. now rewrite H.
  - unfold start. rewrite H. cbn [negb tasks]. now rewrite tally_app.
  - intros db now tr w os Hrun Hns.
    destruct (run_never_started _ _ _ _ Hrun Hns) as [Hr Hc]; [done|].
    now apply stop_not_started.
Qed.

Lemma start_idempotent_stop_trivial_witness :
  let e := mkEvent "t" "e1" "2025-10-18T10:00:00Z" "src" "{}" in
  tasks (start (boot DedupStore.fresh 0))
  = [mkTask 0 Waiting; mkTask 1 Waiting; mkTask 2 Waiting;
     mkTask 3 Waiting; mkTask 4 Waiting]
  /\ start (start (boot DedupStore.fresh 0)) = start (boot DedupStore.fresh 0)
  /\ stop (mkWorld DedupStore.fresh
             (mkAgg [e] 1 0 0 0 false []) [])
     = (mkWorld DedupStore.fresh (mkAgg [e] 1 0 0 0 false []) [],
        StopReturned).
Proof.
  intros e.
  destruct start_idempotent_stop_trivial as (H1 & H2 & H3 & H4).
  split; [|split].
  - apply (H3 (boot DedupStore.fresh 0)). reflexivity.
  - apply (H1 (start (boot DedupStore.fresh 0))). reflexivity.
  - apply (H4 DedupStore.fresh 0%Q [LPublish [e]; LStop] _
             [OPublished (PublishResult.mk 1 0 0); OSilent]);
      reflexivity.
Defined.

(** C7, as the code has it. The uptime that [get_stats] reports is the
    reading of the clock at the call minus the reading taken when the
    aggregator was built: [start] and every other step leave
    [start_time] as it is. Across two calls on the same aggregator whose
    clock readings do not decrease, the uptime does not decrease. *)
Theorem uptime_counts_from_construction
    db t0 tr1 tr2 w1 w2 os1 os2 (now1 now2 : Q) :
  run (boot db t0) tr1 = Some (w1, os1) ->
  run w1 tr2 = Some (w2, os2) ->
  existsb is_restart (tr1 ++ tr2) = false ->
  (now1 <= now2)%Q ->
  StatsResponse.uptime (get_stats (store w1) (agg w1) now1)
  = (now1 - t0)%Q
  /\ StatsResponse.uptime (get_stats (store w2) (agg w2) now2)
     = (now2 - t0)%Q
  /\ (StatsResponse.uptime (get_stats (store w1) (agg w1) now1)
      <= StatsResponse.uptime (get_stats (store w2) (agg w2) now2))%Q.
Proof.
  intros H1 H2 Hr Hle. rewrite existsb_app in Hr.
  apply orb_false_elim in Hr as [Hr1 Hr2].
  pose proof (run_start_time _ _ _ _ H1 Hr1) as E1.
  pose proof (run_start_time _ _ _ _ H2 Hr2) as E2.
  cbn in *. rewrite E2, E1. repeat split. lra.
Qed.

Lemma uptime_counts_from_construction_witness :
  StatsResponse.uptime
    (get_stats DedupStore.fresh (agg (start (boot DedupStore.fresh 0))) 6)
  = (6 - 0)%Q.
Proof.
  apply (uptime_counts_from_construction DedupStore.fresh 0
           [LStart] [LPublish []]
           (start (boot DedupStore.fresh 0))
           (start (boot DedupStore.fresh 0))
           [OSilent] [OPublished PublishResult.zero] 6 7);
    try reflexivity.
  discriminate.
Defined.

(** C7, as the specification has it, fails: an aggregator built at 0 and
    started at 5 reports at 6 an uptime of 6, not of about 1. *)
Lemma uptime_since_start_counterexample : ~ uptime_counts_from_start.
Proof.
  intros H.
  destruct (H DedupStore.fresh 0%Q 5%Q 6%Q) as [_ Hlt]; [discriminate ..|].
  vm_compute in Hlt. discriminate.
Qed.

End Lifecycle.

(** ** The workers *)

Section Workers.

Lemma task_state_at_Some w i s :
  task_state_at w i = Some s ->
  exists t, tasks w !! i = Some t /\ state t = s.
Proof.
  unfold task_state_at. destruct (tasks w !! i) as [t|]; [|done].
  intros [= <-]. eauto.
Qed.

Lemma task_state_at_set_task_eq w i s t :
  tasks w !! i = Some t -> task_state_at (set_task i s w) i = Some s.
Proof.
  intros H. unfold task_state_at. rewrite (set_task_tasks _ _ _ _ H).
  rewrite list_lookup_insert_eq; [done|]. now apply lookup_lt_Some in H.
Qed.

Lemma task_state_at_set_task_ne w i j s :
  i <> j -> task_state_at (set_task i s w) j = task_state_at w j.
Proof.
  intros H. unfold task_state_at, set_task.
  destruct (tasks w !! i); [|done]. cbn.
  now rewrite list_lookup_insert_ne.
Qed.

Lemma tally_insert f l i (t t' : Task) :
  l !! i = Some t ->
  tally f (<[i := t']> l) + f t = tally f l + f t'.
Proof.
  unfold tally, list_sum. revert i.
  induction l as [|x l IH]; intros [|i] H; try discriminate H;
    simpl in *.
  - simplify_eq. lia.
  - specialize (IH _ H). lia.
Qed.

Lemma tally_set_task f w i s t :
  tasks w !! i = Some t ->
  tally f (tasks (set_task i s w)) + f t
  = tally f (tasks w) + f (mkTask (worker_id t) s).
Proof.
  intros H. rewrite (set_task_tasks _ _ _ _ H). now apply tally_insert.
Qed.

Lemma mark_processed_fault e db tp id ts now :
  e <> IntegrityError ->
  DedupStore.mark_processed (Some e) db tp id ts now = (db, Raise e).
Proof. intros H. now destruct e. Qed.

Lemma mark_processed_no_integrity_error fault db tp id ts now :
  (DedupStore.mark_processed fault db tp id ts now).2
  <> Raise IntegrityError.
Proof.
  destruct fault as [e|].
  - now destruct e.
  - unfold DedupStore.mark_processed, DedupStore.sql_insert.
    now destruct (DedupStore.is_duplicate _ _ _).
Qed.

(** C6. Every error of the persistence layer other than
    [IntegrityError] leaves [mark_processed] as an exception, the table
    unchanged; [IntegrityError] never leaves it, and the violation of the
    primary key makes it return [False]. When such an error is raised
    while task [i] processes the event it holds, the step is taken, the
    error is logged, and the task is back at the head of its loop: no task
    has finished, the other tasks, the queue and the counters are as
    before, and the task takes the next event of the queue. *)
Theorem store_failure_raised_and_survived err :
  err <> IntegrityError ->
  (forall db tp id ts now,
      DedupStore.mark_processed (Some err) db tp id ts now
      = (db, Raise err))
  /\ (forall fault db tp id ts now,
        (DedupStore.mark_processed fault db tp id ts now).2
        <> Raise IntegrityError)
  /\ (forall db tp id ts now,
        DedupStore.is_duplicate db tp id = true ->
        DedupStore.mark_processed None db tp id ts now
        = (db, Return false))
  /\ (forall w i ev now,
        task_state_at w i = Some (Holding ev) ->
        exists w',
          step w (LProcess i now (Some err)) = Some (w', OError ev err)
          /\ task_state_at w' i = Some Waiting
          /\ (forall j, j <> i -> task_state_at w' j = task_state_at w j)
          /\ tally live (tasks w') = tally live (tasks w)
          /\ length (tasks w') = length (tasks w)
          /\ store w' = store w
          /\ agg w' = agg w
          /\ (forall e q,
                queue (agg w) = e :: q ->
                exists w'',
                  step w' (LGet i) = Some (w'', OSilent)
                  /\ task_state_at w'' i = Some (Holding e))).
Proof.
  intros Herr. split; [|split; [|split]].
  - intros. now apply mark_processed_fault.
  - apply mark_processed_no_integrity_error.
  - intros. now apply mark_processed_dup.
  - intros w i ev now Hi.
    destruct (task_state_at_Some _ _ _ Hi) as (t & Ht & Hs).
    set (w0 := mkWorld (store w) (agg w) (tasks w)).
    exists (set_task i Waiting w0).
    assert (Ht0 : tasks w0 !! i = Some t) by exact Ht.
    split; [|split; [|split; [|split; [|split; [|split; [|split]]]]]].
    + cbn. rewrite Hi. unfold _process_event.
      now rewrite mark_processed_fault.
    + now apply (task_state_at_set_task_eq w0 i Waiting t).
    + intros j Hj. now rewrite task_state_at_set_task_ne.
    + pose proof (tally_set_task live w0 i Waiting t Ht0) as Hl.
      unfold live in Hl at 2 4. rewrite Hs in Hl. cbn in Hl. lia.
    + rewrite (set_task_tasks _ _ _ _ Ht0). now rewrite length_insert.
    + now rewrite set_task_store.
    + now rewrite set_task_agg.
    + intros e q Hq.
      eexists. split.
      * cbn. rewrite (task_state_at_set_task_eq w0 i Waiting t Ht0).
        rewrite set_task_agg. cbn. rewrite Hq. reflexivity.
      * set (w1 := set_task i Waiting w0).
        assert (exists t1, tasks w1 !! i = Some t1) as [t1 Ht1].
        { unfold w1. rewrite (set_task_tasks _ _ _ _ Ht0).
          rewrite list_lookup_insert_eq; eauto.
          now apply lookup_lt_Some in Ht0. }
        now apply (task_state_at_set_task_eq
                     (mkWorld _ _ (tasks w1)) i (Holding e) t1).
Qed.

Lemma store_failure_raised_and_survived_witness :
  let e1 := mkEvent "t" "e1" "2025-10-18T10:00:00Z" "src" "{}" in
  let e2 := mkEvent "t" "e2" "2025-10-18T10:00:00Z" "src" "{}" in
  let w := mkWorld DedupStore.fresh
             (mkAgg [e2] 2 0 0 0 true [0; 1])
             [mkTask 0 (Holding e1); mkTask 1 Waiting] in
  exists w',
    step w (LProcess 0 "now" (Some OperationalError))
    = Some (w', OError e1 OperationalError)
    /\ task_state_at w' 0 = Some Waiting.
Proof.
  intros e1 e2 w.
  destruct (store_failure_raised_and_survived OperationalError)
    as (_ & _ & _ & H); [discriminate|].
  destruct (H w 0 e1 "now"%string) as (w' & Hs & Hw & _); [reflexivity|].
  exists w'. split; [exact Hs|exact Hw].
Defined.

End Workers.

(** ** Conservation and idempotency *)

Section Accounting.

Lemma process_event_new fault now db a e db' a' :
  _process_event fault now db a e = (db', a', Return true) ->
  known db e = false
  /\ db' = db ++ [(topic e, event_id e, timestamp e, now)]
  /\ a' = incr_unique_processed a.
Proof.
  unfold _process_event, DedupStore.mark_processed, DedupStore.sql_insert,
    known.
  destruct fault as [err|]; [now destruct err|]. cbn.
  destruct (DedupStore.is_duplicate db (topic e) (event_id e));
    intros [= <- <-]; done.
Qed.

Lemma process_event_dup fault now db a e db' a' :
  _process_event fault now db a e = (db', a', Return false) ->
  db' = db /\ a' = incr_duplicate_dropped a
  /\ (fault = None -> known db e = true).
Proof.
  unfold _process_event, DedupStore.mark_processed, DedupStore.sql_insert,
    known.
  destruct fault as [err|].
  - destruct err; intros [= <- <-]; done.
  - cbn. destruct (DedupStore.is_duplicate db (topic e) (event_id e));
      intros [= <- <-]; done.
Qed.

Lemma process_event_err fault now db a e db' a' err :
  _process_event fault now db a e = (db', a', Raise err) ->
  db' = db /\ a' = a /\ fault = Some err.
Proof.
  unfold _process_event, DedupStore.mark_processed, DedupStore.sql_insert.
  destruct fault as [err'|].
  - destruct err'; intros [= <- <- <-]; done.
  - cbn. destruct (DedupStore.is_duplicate db (topic e) (event_id e));
      intros [=].
Qed.

Lemma tally_spawned f (ids : list nat) :
  (forall i, f (mkTask i Waiting) = 0) ->
  tally f (map (fun i => mkTask i Waiting) ids) = 0.
Proof.
  intros H. unfold tally. induction ids as [|i ids IH]; cbn; [done|].
  rewrite H. exact IH.
Qed.

Lemma drained_backlog w : drained w = true -> backlog w = 0.
Proof.
  unfold drained, backlog. destruct (queue (agg w)); [|done].
  intros H. cbn. unfold tally.
  induction (tasks w) as [|t ts IH]; cbn in *; [done|].
  apply andb_prop in H as [H1 H2]. unfold flying at 1.
  destruct (is_holding (state t)); [done|]. now apply IH.
Qed.

Lemma drained_pending k w : drained w = true -> pending k w = 0.
Proof.
  unfold drained, pending. destruct (queue (agg w)); [|done].
  intros H. cbn. unfold tally.
  induction (tasks w) as [|t ts IH]; cbn in *; [done|].
  apply andb_prop in H as [H1 H2]. unfold flying_key at 1.
  destruct (state t); try done; now apply IH.
Qed.

Lemma boot_balanced db now : balanced (boot db now).
Proof. reflexivity. Qed.

Lemma tally_set_task_at f w i s t n m :
  tasks w !! i = Some t ->
  f t = n -> f (mkTask (worker_id t) s) = m ->
  tally f (tasks (set_task i s w)) + n = tally f (tasks w) + m.
Proof. intros H <- <-. now apply tally_set_task. Qed.

End Accounting.

(** What an enabled step says about the task it moves and about the call
    it makes. *)
Ltac step_facts :=
  repeat match goal with
         | E : task_state_at _ _ = Some _ |- _ =>
             let t := fresh "t" in
             let Ht := fresh "Ht" in
             let Hs := fresh "Hs" in
             apply task_state_at_Some in E as (t & Ht & Hs)
         | E : _process_event _ _ _ _ _ = (_, _, Return true) |- _ =>
             apply process_event_new in E as (? & -> & ->)
         | E : _process_event _ _ _ _ _ = (_, _, Return false) |- _ =>
             apply process_event_dup in E as (-> & -> & ?)
         | E : _process_event _ _ _ _ _ = (_, _, Raise _) |- _ =>
             apply process_event_err in E as (-> & -> & ?)
         end.

(** The change of a tally when task [i] moves to another state. *)
Ltac tally_step f :=
  match goal with
  | Ht : tasks _ !! ?i = Some ?t, Hs : state ?t = _
    |- context [tally f (tasks (set_task ?i ?s ?W))] =>
      let Hf := fresh "Hf" in
      epose proof (tally_set_task_at f W i s t _ _ Ht
                     ltac:(cbv beta delta [flying flying_key live];
                           rewrite Hs; reflexivity)
                     ltac:(reflexivity)) as Hf;
      cbn in Hf
  end.

Section Conservation.

(** A step that logs no failure keeps the counters balanced. *)
Lemma step_balanced w l w' o :
  step w l = Some (w', o) -> is_error o = false ->
  balanced w -> balanced w'.
Proof.
  unfold balanced, backlog. intros H Ho Hb.
  destruct l; step_inv H; try discriminate Ho; step_facts;
    rewrite ?set_task_agg, ?stop_world; cbn [agg tasks store];
    try tally_step flying;
    try match goal with
        | E : queue (agg _) = _ |- _ => try rewrite E in Hb; try rewrite E
        end;
    cbn in Hb |- *; try lia; try reflexivity.
  - unfold start. destruct (running (agg w)); cbn [negb]; [exact Hb|].
    cbn [agg tasks]. rewrite tally_app, tally_spawned by done.
    cbn in Hb |- *. lia.
  - frame_facts. rewrite length_app.
    pose proof (filter_split_length (known (store w)) events). lia.
Qed.

Lemma fault_free_no_error w i now w' o :
  step w (LProcess i now None) = Some (w', o) -> is_error o = false.
Proof.
  intros H. step_inv H; step_facts; done.
Qed.

Lemma step_fault_free w l w' o :
  step w l = Some (w', o) -> fault_free [l] = true -> is_error o = false.
Proof.
  intros H Hl. destruct l; try (step_inv H; done).
  destruct fault; [discriminate Hl|].
  eapply fault_free_no_error; eauto.
Qed.

Lemma run_balanced tr : forall w w' os,
  run w tr = Some (w', os) -> fault_free tr = true ->
  balanced w -> balanced w'.
Proof.
  induction tr as [|l tr IH]; cbn; intros w w' os H Hf Hb.
  - now inversion H; subst.
  - destruct (step w l) as [[w1 o]|] eqn:Hs; [|discriminate].
    destruct (run w1 tr) as [[w2 os']|] eqn:Hrun; [|discriminate].
    inversion H; subst.
    apply andb_prop in Hf as [Hl Hf].
    eapply IH; eauto.
    eapply step_balanced; eauto.
    eapply step_fault_free; eauto. cbn. now rewrite Hl.
Qed.




(** The same run, with its final state. *)
Lemma store_failure_is_not_counted :
  let e := mkEvent "t" "e1" "2025-10-18T10:00:00Z" "src" "{}" in
  exists w os,
    run (boot DedupStore.fresh 0)
        [LStart; LPublish [e]; LGet 0;
         LProcess 0 "n1" (Some OperationalError)]
    = Some (w, os)
    /\ drained w = true
    /\ received (agg w) = 1
    /\ unique_processed (agg w) + duplicate_dropped (agg w) = 0.
Proof. intros e. eexists _, _. repeat split. Qed.

End Conservation.

Section Idempotency.

Variable k : Key.

Lemma known_count db e :
  known db e = true <-> 1 <= DedupStore.count_key (event_key e) db.
Proof. apply is_duplicate_true_count. Qed.

Lemma unknown_count db e :
  known db e = false <-> DedupStore.count_key (event_key e) db = 0.
Proof. apply is_duplicate_count. Qed.

Lemma key_eqb_true e : key_eqb k e = true -> event_key e = k.
Proof. unfold key_eqb. now intros ?%bool_decide_eq_true. Qed.

(** A row with key [k] enters the table exactly in the steps that
    increment [unique_processed] for an event with key [k]. *)
Lemma step_count_key w l w' o :
  step w l = Some (w', o) ->
  DedupStore.count_key k (store w')
  = DedupStore.count_key k (store w) + unique_increments k [o].
Proof.
  intros H.
  destruct l; step_inv H; step_facts;
    rewrite ?set_task_store, ?stop_world; cbn [store];
    unfold unique_increments, DedupStore._init_db; cbn; try lia.
  - unfold start. destruct (running (agg w)); cbn; lia.
  - rewrite count_key_app, count_key_singleton.
    unfold row_key, key_eqb, event_key. cbn.
    repeat case_bool_decide; cbn; try done; lia.
  - unfold DedupStore._init_db. lia.
  - unfold DedupStore._init_db. lia.
Qed.

Lemma step_count_key_le w l w' o :
  step w l = Some (w', o) ->
  DedupStore.count_key k (store w) <= 1 ->
  DedupStore.count_key k (store w') <= 1.
Proof.
  intros H Hle. pose proof (step_count_key _ _ _ _ H) as Hc.
  unfold unique_increments in Hc.
  destruct o as [| |e [|]|]; cbn in Hc; try lia.
  destruct (key_eqb k e) eqn:Ek; cbn in Hc; [|lia].
  apply key_eqb_true in Ek.
  destruct l; step_inv H; step_facts.
  match goal with U : known _ _ = false |- _ =>
    apply unknown_count in U; lia end.
Qed.

Lemma run_count_key tr : forall w w' os,
  run w tr = Some (w', os) ->
  DedupStore.count_key k (store w')
  = DedupStore.count_key k (store w) + unique_increments k os
  /\ (DedupStore.count_key k (store w) <= 1 ->
      DedupStore.count_key k (store w') <= 1).
Proof.
  induction tr as [|l tr IH]; cbn; intros w w' os H.
  - inversion H; subst. unfold unique_increments. cbn. lia.
  - destruct (step w l) as [[w1 o]|] eqn:Hs; [|discriminate].
    destruct (run w1 tr) as [[w2 os']|] eqn:Hrun; [|discriminate].
    inversion H; subst.
    destruct (IH _ _ _ Hrun) as [IH1 IH2].
    pose proof (step_count_key _ _ _ _ Hs) as Hc.
    pose proof (step_count_key_le _ _ _ _ Hs) as Hle.
    split; [|auto].
    rewrite IH1, Hc. unfold unique_increments.
    change (o :: os') with ([o] ++ os').
    rewrite List.filter_app, length_app. lia.
Qed.

(** An event with key [k] handed to [publish] is either known to the
    store or among the events that are enqueued. *)
Lemma published_known_or_queued db events :
  1 <= length (List.filter (key_eqb k) events) ->
  1 <= DedupStore.count_key k db
  \/ 1 <= length (List.filter (key_eqb k)
                    (List.filter (fun e => negb (known db e)) events)).
Proof.
  induction events as [|e events IH]; cbn; [lia|].
  destruct (key_eqb k e) eqn:Ek; cbn.
  - intros _. destruct (known db e) eqn:Hk; cbn.
    + left. apply known_count in Hk. apply key_eqb_true in Ek.
      now rewrite <- Ek.
    + right. rewrite Ek. cbn. lia.
  - intros H. destruct (IH H) as [?|?]; [now left|right].
    destruct (known db e); cbn; [done|]. now rewrite Ek.
Qed.

Lemma step_pending w l w' o :
  step w l = Some (w', o) -> fault_free [l] = true -> orderly [l] = true ->
  settled_or_pending k w \/ 1 <= published k [l] ->
  settled_or_pending k w'.
Proof.
  unfold settled_or_pending, pending. intros H Hf Ho Hw.
  pose proof (step_count_key _ _ _ _ H) as Hc.
  destruct l; step_inv H; step_facts;
    rewrite ?set_task_agg, ?set_task_store, ?stop_world in *;
    cbn [agg tasks store] in *;
    try tally_step (flying_key k);
    try match goal with
        | E : queue (agg _) = _ |- _ => try rewrite E in Hw; try rewrite E
        end;
    unfold published in Hw; cbn in Hw, Hc |- *;
    try (subst; discriminate Hf); try discriminate Ho;
    repeat match goal with
           | H : context [if key_eqb k ?e then _ else _] |- _ =>
               let Ek := fresh "Ek" in
               destruct (key_eqb k e) eqn:Ek; cbn in H
           end;
    cbn in *; try lia.
  - unfold start. destruct (running (agg w)); cbn [negb]; [lia|].
    cbn [store agg tasks]. rewrite tally_app, tally_spawned by done.
    cbn. lia.
  - frame_facts. rewrite List.filter_app, length_app.
    pose proof (published_known_or_queued (store w) events). lia.
  - destruct fault; [discriminate Hf|].
    left. apply key_eqb_true in Ek. subst k. apply known_count. auto.
  - pose proof (drained_pending k w E) as Hp. unfold pending in Hp.
    unfold DedupStore._init_db. lia.
Qed.

Lemma published_cons l tr :
  published k (l :: tr) = published k [l] + published k tr.
Proof. unfold published, list_sum. cbn. lia. Qed.

Lemma run_pending tr : forall w w' os,
  run w tr = Some (w', os) -> fault_free tr = true -> orderly tr = true ->
  settled_or_pending k w \/ 1 <= published k tr ->
  settled_or_pending k w'.
Proof.
  induction tr as [|l tr IH]; intros w w' os H Hf Ho Hw;
    cbn in H, Hf, Ho.
  - inversion H; subst. unfold published in Hw. cbn in Hw.
    destruct Hw as [?|?]; [done|lia].
  - destruct (step w l) as [[w1 o]|] eqn:Hs; [|discriminate].
    destruct (run w1 tr) as [[w2 os']|] eqn:Hrun; [|discriminate].
    inversion H; subst.
    apply andb_prop in Hf as [Hl Hf].
    apply andb_prop in Ho as [Hc Ho].
    assert (Hl1 : fault_free [l] = true) by (cbn; now rewrite Hl).
    assert (Hc1 : orderly [l] = true) by (cbn; now rewrite Hc).
    pose proof (step_pending _ _ _ _ Hs Hl1 Hc1) as Hstep.
    apply (IH _ _ _ Hrun Hf Ho).
    rewrite published_cons in Hw.
    destruct Hw as [Hw|Hw]; [left; apply Hstep; now left|].
    destruct (decide (1 <= published k [l])) as [Ha|Ha];
      [left; apply Hstep; now right|right; lia].
Qed.

(** The counter [unique_processed] moves exactly in the steps observed
    as the processing of a new event. *)
Lemma step_unique_processed w l w' o :
  step w l = Some (w', o) -> is_restart l = false ->
  unique_processed (agg w')
  = unique_processed (agg w) + (if is_new o then 1 else 0).
Proof.
  intros H Hl.
  destruct l; try discriminate Hl; step_inv H; step_facts;
    rewrite ?set_task_agg, ?stop_world; cbn; try lia.
  - unfold start. destruct (running (agg w)); cbn; lia.
  - frame_facts. lia.
Qed.

Lemma run_unique_processed tr : forall w w' os,
  run w tr = Some (w', os) -> existsb is_restart tr = false ->
  unique_processed (agg w')
  = unique_processed (agg w) + length (List.filter is_new os).
Proof.
  induction tr as [|l tr IH]; cbn; intros w w' os H Hr.
  - inversion H; subst. cbn. lia.
  - apply orb_false_elim in Hr as [Hl Hr].
    destruct (step w l) as [[w1 o]|] eqn:Hs; [|discriminate].
    destruct (run w1 tr) as [[w2 os']|] eqn:Hrun; [|discriminate].
    inversion H; subst.
    rewrite (IH _ _ _ Hrun Hr), (step_unique_processed _ _ _ _ Hs Hl).
    cbn. destruct (is_new o); cbn; lia.
Qed.

End Idempotency.


(** * Further properties *)

(** ** The store: lookups, statistics and the primary key *)

Section StoreQueries.
Import DedupStore.

Lemma count_key_cons k (r : Row) db :
  count_key k (r :: db)
  = (if bool_decide (row_key r = k) then 1 else 0) + count_key k db.
Proof.
  change (r :: db) with ([r] ++ db).
  now rewrite count_key_app, count_key_singleton.
Qed.

Lemma count_key_elem_of k db : 1 <= count_key k db <-> k ∈ map row_key db.
Proof.
  induction db as [|r db IH].
  - unfold count_key. cbn. split; [lia|]. intros H. inversion H.
  - rewrite count_key_cons. cbn [map]. rewrite elem_of_cons.
    case_bool_decide; split; intros H'.
    + now left.
    + lia.
    + right. apply IH. lia.
    + destruct H' as [->|H']; [done|]. apply IH in H'. lia.
Qed.

Lemma pk_unique_NoDup db : pk_unique db <-> NoDup (map row_key db).
Proof.
  unfold pk_unique. induction db as [|r db IH]; cbn [map].
  - split; [constructor|]. intros _ k. unfold count_key. cbn. lia.
  - rewrite NoDup_cons, <- IH, <- count_key_elem_of. split.
    + intros H. split.
      * specialize (H (row_key r)). rewrite count_key_cons in H.
        rewrite bool_decide_eq_true_2 in H by done. lia.
      * intros k. specialize (H k). rewrite count_key_cons in H. lia.
    + intros [H1 H2] k. rewrite count_key_cons. specialize (H2 k).
      case_bool_decide; subst; lia.
Qed.

Lemma is_duplicate_bool db tp id :
  is_duplicate db tp id = bool_decide (1 <= count_key (tp, id) db).
Proof.
  destruct (is_duplicate db tp id) eqn:E.
  - apply is_duplicate_true_count in E. now rewrite bool_decide_eq_true_2.
  - apply is_duplicate_count in E. rewrite bool_decide_eq_false_2; [done|lia].
Qed.

Lemma mark_processed_fault_store err db tp id ts now :
  (mark_processed (Some err) db tp id ts now).1 = db.
Proof. now destruct err. Qed.

(** X1. [is_duplicate] answers whether the table holds a row with the
    key. After a [mark_processed] call that meets no failure the key of the
    call is known; a call on another key, or one that meets a failure,
    changes the answer for no key; after [clear] no key is known. *)
Theorem is_duplicate_tracks_rows db tp id :
  (is_duplicate db tp id = true <-> (tp, id) ∈ map row_key db)
  /\ (forall ts now,
        is_duplicate (mark_processed None db tp id ts now).1 tp id = true)
  /\ (forall fault tp' id' ts now,
        (tp', id') <> (tp, id) ->
        is_duplicate (mark_processed fault db tp' id' ts now).1 tp id
        = is_duplicate db tp id)
  /\ (forall err tp' id' ts now,
        is_duplicate (mark_processed (Some err) db tp' id' ts now).1 tp id
        = is_duplicate db tp id)
  /\ is_duplicate (clear db) tp id = false.
Proof.
  split; [|split; [|split; [|split]]].
  - rewrite is_duplicate_true_count. apply count_key_elem_of.
  - intros ts now. rewrite is_duplicate_bool, mark_processed_count.
    rewrite (bool_decide_eq_true_2 ((tp, id) = (tp, id))) by done.
    destruct (is_duplicate db tp id) eqn:E.
    + apply is_duplicate_true_count in E. now rewrite bool_decide_eq_true_2.
    + now rewrite bool_decide_eq_true_2.
  - intros [err|] tp' id' ts now Hne.
    + now rewrite mark_processed_fault_store.
    + rewrite !is_duplicate_bool, mark_processed_count.
      now rewrite (bool_decide_eq_false_2 _ Hne).
  - intros. now rewrite mark_processed_fault_store.
  - reflexivity.
Qed.

Lemma is_duplicate_tracks_rows_witness :
  is_duplicate (mark_processed None [("t", "e1", "ts", "n1")]%string
                  "t" "e2" "ts" "n2").1 "t" "e1"
  = is_duplicate [("t", "e1", "ts", "n1")]%string "t" "e1".
Proof.
  apply (is_duplicate_tracks_rows
           [("t", "e1", "ts", "n1")]%string "t" "e1")%string.
  discriminate.
Defined.

Lemma apply_ops_pk ops : forall db,
  pk_unique db -> pk_unique (apply_ops db ops).
Proof.
  unfold apply_ops.
  induction ops as [|op ops IH]; intros db H; cbn [foldl]; [done|].
  apply IH. destruct op as [fault r|]; cbn.
  - now apply mark_processed_pk.
  - intros k. unfold clear, count_key. cbn. lia.
Qed.

(** X2. Whatever [mark_processed] calls, with or without failures of
    the persistence layer, and [clear] calls are made on a new store, in
    any order, no two rows of the table have the same (topic, event_id). *)
Theorem primary_key_kept ops :
  NoDup (map row_key (apply_ops fresh ops))
  /\ forall k, count_key k (apply_ops fresh ops) <= 1.
Proof.
  assert (H : pk_unique (apply_ops fresh ops)).
  { apply apply_ops_pk. intros k. unfold fresh, count_key. cbn. lia. }
  split; [now apply pk_unique_NoDup|exact H].
Qed.

(** *** Topic counts *)

Lemma count_topic_cons tp (r : Row) db :
  count_topic tp (r :: db)
  = (if bool_decide (row_topic r = tp) then 1 else 0) + count_topic tp db.
Proof.
  unfold count_topic, topic_is. cbn. now case_bool_decide.
Qed.

Lemma bump_get_eq tp d :
  dict_get tp (bump tp d) = Some (S (default 0 (dict_get tp d))).
Proof.
  induction d as [|[k n] d IH]; cbn.
  - now rewrite bool_decide_eq_true_2.
  - case_bool_decide; cbn.
    + now rewrite bool_decide_eq_true_2.
    + now rewrite bool_decide_eq_false_2.
Qed.

Lemma bump_get_ne tp tp' d :
  tp' <> tp -> dict_get tp (bump tp' d) = dict_get tp d.
Proof.
  intros Hne. induction d as [|[k n] d IH]; cbn.
  - now rewrite bool_decide_eq_false_2.
  - case_bool_decide; cbn.
    + subst. now rewrite !bool_decide_eq_false_2.
    + now rewrite IH.
Qed.

Lemma bump_sum tp d :
  list_sum (map snd (bump tp d)) = S (list_sum (map snd d)).
Proof.
  unfold list_sum. induction d as [|[k n] d IH]; cbn; [done|].
  case_bool_decide; cbn; [done|]. rewrite IH. lia.
Qed.

Lemma bump_keys tp d k :
  k ∈ map fst (bump tp d) <-> k = tp \/ k ∈ map fst d.
Proof.
  induction d as [|[k' n] d IH]; cbn.
  - rewrite list_elem_of_singleton. split; [now left|].
    intros [H|H]; [done|inversion H].
  - case_bool_decide; cbn; rewrite !elem_of_cons.
    + subst. tauto.
    + rewrite IH. tauto.
Qed.

Lemma bump_NoDup tp d : NoDup (map fst d) -> NoDup (map fst (bump tp d)).
Proof.
  induction d as [|[k n] d IH]; cbn.
  - intros _. apply NoDup_singleton.
  - rewrite NoDup_cons. intros [Hk Hd].
    case_bool_decide; cbn; rewrite NoDup_cons.
    + done.
    + split; [|auto]. rewrite bump_keys. intros [?|?]; done.
Qed.

Lemma topic_counts_fold tp db : forall d,
  dict_get tp (foldl (fun d r => bump (row_topic r) d) d db)
  = if bool_decide (count_topic tp db = 0) then dict_get tp d
    else Some (default 0 (dict_get tp d) + count_topic tp db).
Proof.
  induction db as [|r db IH]; intros d; cbn [foldl].
  - now rewrite bool_decide_eq_true_2.
  - rewrite IH, count_topic_cons.
    destruct (decide (row_topic r = tp)) as [->|Hne].
    + rewrite bump_get_eq, (bool_decide_eq_true_2 (tp = tp)) by done. cbn.
      repeat case_bool_decide; try lia; f_equal; lia.
    + rewrite (bump_get_ne _ _ _ Hne), (bool_decide_eq_false_2 _ Hne).
      cbn. done.
Qed.

Lemma topic_counts_sum db : forall d,
  list_sum (map snd (foldl (fun d r => bump (row_topic r) d) d db))
  = list_sum (map snd d) + length db.
Proof.
  induction db as [|r db IH]; intros d; cbn [foldl length]; [lia|].
  rewrite IH, bump_sum. lia.
Qed.

Lemma topic_counts_NoDup db : forall d,
  NoDup (map fst d) ->
  NoDup (map fst (foldl (fun d r => bump (row_topic r) d) d db)).
Proof.
  induction db as [|r db IH]; intros d H; cbn [foldl]; [done|].
  apply IH. now apply bump_NoDup.
Qed.

(** X3. The statistics of the store count the rows: [total_unique] is
    the number of rows and the sum of the counts of all topics; every topic
    occurs once in [topics], with the number of its rows, and a topic
    without rows does not occur; for a non-empty topic the count is the
    number of records that [get_processed_events] returns for it. *)
Theorem get_stats_counts_rows db :
  total_unique (get_stats db) = length db
  /\ list_sum (map snd (topics (get_stats db))) = total_unique (get_stats db)
  /\ NoDup (map fst (topics (get_stats db)))
  /\ (forall tp,
        dict_get tp (topics (get_stats db))
        = if bool_decide (count_topic tp db = 0) then None
          else Some (count_topic tp db))
  /\ (forall tp,
        tp <> ""%string ->
        length (get_processed_events db (Some tp))
        = default 0 (dict_get tp (topics (get_stats db)))).
Proof.
  assert (Hget : forall tp,
             dict_get tp (topics (get_stats db))
             = if bool_decide (count_topic tp db = 0) then None
               else Some (count_topic tp db)).
  { intros tp. cbn. unfold topic_counts. now rewrite topic_counts_fold. }
  split; [reflexivity|]. split; [|split; [|split]].
  - cbn. unfold topic_counts. now rewrite topic_counts_sum.
  - cbn. unfold topic_counts. apply topic_counts_NoDup. constructor.
  - exact Hget.
  - intros tp Hne. rewrite Hget.
    unfold get_processed_events, truthy.
    rewrite (bool_decide_eq_false_2 _ Hne). cbn [negb default].
    rewrite (Permutation_length (order_by_perm _)).
    fold (count_topic tp db). now case_bool_decide.
Qed.

Lemma get_stats_counts_rows_witness :
  length (get_processed_events
            [("a", "1", "ts", "n1"); ("b", "1", "ts", "n2");
             ("a", "2", "ts", "n3")]%string (Some "a"%string))
  = default 0
      (dict_get "a"
         (topics (get_stats [("a", "1", "ts", "n1"); ("b", "1", "ts", "n2");
                             ("a", "2", "ts", "n3")]%string))).
Proof.
  apply (get_stats_counts_rows
           [("a", "1", "ts", "n1"); ("b", "1", "ts", "n2");
            ("a", "2", "ts", "n3")]%string).
  discriminate.
Defined.

Lemma filter_keys_NoDup (P : Row -> bool) db :
  NoDup (map row_key db) -> NoDup (map row_key (List.filter P db)).
Proof.
  induction db as [|r db IH]; cbn; [done|].
  rewrite NoDup_cons. intros [Hr Hd].
  destruct (P r); cbn; [|auto].
  rewrite NoDup_cons. split; [|auto].
  intros Hin. apply Hr.
  change (row_key r ∈ row_key <$> List.filter P db) in Hin.
  change (row_key r ∈ row_key <$> db).
  apply list_elem_of_fmap in Hin as (x & Hx & Hin).
  apply list_elem_of_fmap. exists x. split; [done|].
  apply list_elem_of_In in Hin. apply List.filter_In in Hin as [Hin _].
  now apply list_elem_of_In.
Qed.

(** X4. Whatever the history of the store, [get_events] never returns
    two records with the same (topic, event_id), with or without a topic
    filter. *)
Theorem get_events_keys_distinct ops topic :
  NoDup (map dict_key (get_events (apply_ops fresh ops) topic)).
Proof.
  set (db := apply_ops fresh ops).
  assert (Hdb : NoDup (map row_key db)).
  { apply pk_unique_NoDup, apply_ops_pk.
    intros k. unfold fresh, count_key. cbn. lia. }
  unfold get_events. rewrite map_map.
  change (fun x => dict_key (to_dict x)) with row_key.
  unfold get_processed_events. destruct (truthy topic).
  - rewrite (order_by_perm _). now apply filter_keys_NoDup.
  - now rewrite (order_by_perm _).
Qed.

End StoreQueries.

(** ** Runs: what the store and the counters record *)

Section RunRecords.

Lemma step_store_app w l w' o :
  step w l = Some (w', o) ->
  exists added,
    store w' = store w ++ added
    /\ length added = (if is_new o then 1 else 0).
Proof.
  intros H.
  destruct l; step_inv H; step_facts;
    rewrite ?set_task_store, ?stop_world; cbn [store is_new];
    try (exists []; rewrite app_nil_r; split; reflexivity).
  - exists []. rewrite app_nil_r. split; [|done].
    unfold start. now destruct (running (agg w)).
  - eexists [_]. split; reflexivity.
Qed.

Lemma run_store_app tr : forall w w' os,
  run w tr = Some (w', os) ->
  exists added,
    store w' = store w ++ added
    /\ length added = length (List.filter is_new os).
Proof.
  induction tr as [|l tr IH]; cbn; intros w w' os H.
  - inversion H; subst. exists []. now rewrite app_nil_r.
  - destruct (step w l) as [[w1 o]|] eqn:Hs; [|discriminate].
    destruct (run w1 tr) as [[w2 os']|] eqn:Hrun; [|discriminate].
    inversion H; subst.
    destruct (step_store_app _ _ _ _ Hs) as (a1 & E1 & L1).
    destruct (IH _ _ _ Hrun) as (a2 & E2 & L2).
    exists (a1 ++ a2). rewrite E2, E1, <- app_assoc. split; [done|].
    rewrite length_app, L1, L2. cbn. destruct (is_new o); cbn; lia.
Qed.

(** X5. Along every run, with failures, restarts and crashes, the rows
    of the store are never removed, changed or reordered: the store after
    the run is the store before it followed by one new row for each event
    processed as new. So a key that is known stays known. *)
Theorem store_is_append_only w tr w' os :
  run w tr = Some (w', os) ->
  (exists added,
      store w' = store w ++ added
      /\ length added = length (List.filter is_new os))
  /\ (forall tp id,
        DedupStore.is_duplicate (store w) tp id = true ->
        DedupStore.is_duplicate (store w') tp id = true).
Proof.
  intros H. destruct (run_store_app _ _ _ _ H) as (added & E & L).
  split; [eauto|].
  intros tp id. rewrite !is_duplicate_true_count, E, count_key_app. lia.
Qed.

Lemma store_is_append_only_witness :
  let e := mkEvent "t" "e1" "2025-10-18T10:00:00Z" "src" "{}" in
  let tr := [LStart; LPublish [e]; LGet 0; LProcess 0 "n1" None;
             LCrash 7; LPublish [e]] in
  exists w os,
    run (boot DedupStore.fresh 0) tr = Some (w, os)
    /\ exists added,
         store w = store (boot DedupStore.fresh 0) ++ added
         /\ length added = length (List.filter is_new os).
Proof.
  intros e tr. eexists _, _. split; [reflexivity|].
  apply (store_is_append_only (boot DedupStore.fresh 0) tr).
  reflexivity.
Defined.

Lemma step_received w l w' o :
  step w l = Some (w', o) -> is_restart l = false ->
  received (agg w') = received (agg w) + length (published_events [l]).
Proof.
  intros H Hl.
  destruct l; try discriminate Hl; step_inv H; step_facts;
    rewrite ?set_task_agg, ?stop_world; cbn; try lia.
  - unfold start. destruct (running (agg w)); cbn; lia.
  - frame_facts. rewrite app_nil_r. lia.
Qed.

Lemma published_events_cons l tr :
  published_events (l :: tr) = published_events [l] ++ published_events tr.
Proof. unfold published_events. cbn. now rewrite app_nil_r. Qed.

Lemma run_received tr : forall w w' os,
  run w tr = Some (w', os) -> existsb is_restart tr = false ->
  received (agg w') = received (agg w) + length (published_events tr).
Proof.
  induction tr as [|l tr IH]; intros w w' os H Hr; cbn in H, Hr.
  - inversion H; subst. cbn. lia.
  - apply orb_false_elim in Hr as [Hl Hr].
    destruct (step w l) as [[w1 o]|] eqn:Hs; [|discriminate].
    destruct (run w1 tr) as [[w2 os']|] eqn:Hrun; [|discriminate].
    inversion H; subst.
    rewrite (IH _ _ _ Hrun Hr), (step_received _ _ _ _ Hs Hl).
    rewrite (published_events_cons l tr), length_app. lia.
Qed.

(** X6. For an aggregator built on a store and not restarted, whatever
    the run, also when the processing of events meets failures of the
    persistence layer: the number of rows of the store, which is the
    [total_unique] and the sum of the topic counts that the statistics
    report, is the number of rows at construction plus
    [unique_processed]. *)
Theorem counters_match_store db t0 tr w os now :
  run (boot db t0) tr = Some (w, os) ->
  existsb is_restart tr = false ->
  let stats := get_stats (store w) (agg w) now in
  length (store w) = length db + StatsResponse.unique_processed stats
  /\ DedupStore.total_unique (DedupStore.get_stats (store w))
     = length db + StatsResponse.unique_processed stats
  /\ list_sum (map snd (StatsResponse.topics stats))
     = length db + StatsResponse.unique_processed stats.
Proof.
  intros H Hr. cbn zeta.
  pose proof (run_unique_processed _ _ _ _ H Hr) as Hu.
  destruct (run_store_app _ _ _ _ H) as (added & E & L).
  change (store (boot db t0)) with db in E.
  assert (Hlen : length (store w) = length db + unique_processed (agg w)).
  { rewrite E, length_app, L, Hu. cbn. lia. }
  cbn [get_stats StatsResponse.unique_processed
       StatsResponse.topics DedupStore.get_stats DedupStore.total_unique
       DedupStore.topics].
  split; [exact Hlen|]. split; [exact Hlen|].
  unfold DedupStore.topic_counts. rewrite topic_counts_sum. cbn. exact Hlen.
Qed.

Lemma counters_match_store_witness :
  let e := mkEvent "t" "e1" "2025-10-18T10:00:00Z" "src" "{}" in
  let tr := [LStart; LPublish [e; e]; LGet 0; LGet 1;
             LProcess 0 "n1" None; LProcess 1 "n2" (Some OperationalError)] in
  exists w os,
    run (boot DedupStore.fresh 0) tr = Some (w, os)
    /\ length (store w)
       = 0 + StatsResponse.unique_processed
               (get_stats (store w) (agg w) 9).
Proof.
  intros e tr. eexists _, _. split; [reflexivity|].
  eapply (counters_match_store DedupStore.fresh 0 tr _ _ 9);
    reflexivity.
Defined.

(** *** Where the rows come from *)

Lemma traceable_mono db0 evs more w :
  traceable db0 evs w -> traceable db0 (evs ++ more) w.
Proof.
  intros (Hq & Ht & Hs). repeat split.
  - eapply Forall_impl; [exact Hq|]. intros e He. apply elem_of_app. auto.
  - eapply Forall_impl; [exact Ht|]. intros t Hh e He.
    apply elem_of_app. eauto.
  - eapply Forall_impl; [exact Hs|]. intros r [Hr|(e & He & Hr)]; [auto|].
    right. exists e. split; [|done]. apply elem_of_app. auto.
Qed.

Lemma traceable_set_task db0 evs i s w t :
  tasks w !! i = Some t ->
  (forall e, s = Holding e -> e ∈ evs) ->
  traceable db0 evs w -> traceable db0 evs (set_task i s w).
Proof.
  intros Hi Hs (Hq & Ht & Hst). unfold traceable.
  rewrite set_task_agg, set_task_store, (set_task_tasks _ _ _ _ Hi).
  repeat split; try done.
  apply Forall_insert; [done|]. exact Hs.
Qed.

Lemma traceable_held db0 evs w i t e :
  traceable db0 evs w -> tasks w !! i = Some t -> state t = Holding e ->
  e ∈ evs.
Proof.
  intros (_ & Ht & _) Hi Hs.
  eapply (Forall_lookup_1 _ _ _ _ Ht Hi). exact Hs.
Qed.

Lemma step_traceable db0 evs w l w' o :
  step w l = Some (w', o) -> traceable db0 evs w ->
  traceable db0 (evs ++ published_events [l]) w'.
Proof.
  intros H Hw.
  destruct l; step_inv H; step_facts; try rewrite stop_world;
    try (apply traceable_mono;
         first [ exact Hw
               | eapply traceable_set_task; [eassumption|discriminate|];
                 exact Hw ]).
  - apply traceable_mono. destruct Hw as (Hq & Htk & Hst).
    unfold start. destruct (running (agg w)); cbn [negb]; [done|].
    repeat split; try done. cbn [tasks]. apply Forall_app. split; [done|].
    repeat constructor; discriminate.
  - frame_facts. destruct Hw as (Hq & Htk & Hst).
    pose proof (traceable_mono db0 evs (events ++ [])
                  (mkWorld (store w) (agg w) (tasks w))
                  (conj Hq (conj Htk Hst))) as (Hq' & Ht' & Hs').
    repeat split; try done. cbn [agg queue]. apply Forall_app. split.
    + exact Hq'.
    + apply Forall_forall. intros e He.
      apply list_elem_of_In, List.filter_In in He as [He _].
      apply elem_of_app. right. apply elem_of_app. left.
      now apply list_elem_of_In.
  - apply traceable_mono. destruct Hw as (Hq & Htk & Hst).
    match goal with E : queue (agg w) = _ |- _ => rewrite E in Hq end.
    apply Forall_cons in Hq as [He Hq].
    eapply traceable_set_task; [eassumption| |].
    + intros e' [= <-]. exact He.
    + repeat split; done.
  - apply traceable_mono.
    pose proof (traceable_held _ _ _ _ _ _ Hw Ht Hs) as He.
    destruct Hw as (Hq & Htk & Hst).
    eapply traceable_set_task; [eassumption|discriminate|].
    repeat split; try done. cbn [store]. apply Forall_app. split; [done|].
    constructor; [|constructor]. right. exists e. split; [done|].
    repeat split.
  - apply traceable_mono. destruct Hw as (Hq & Htk & Hst).
    repeat split; try done; constructor.
  - apply traceable_mono. destruct Hw as (Hq & Htk & Hst).
    repeat split; try done; constructor.
Qed.

Lemma run_traceable db0 tr : forall evs w w' os,
  run w tr = Some (w', os) -> traceable db0 evs w ->
  traceable db0 (evs ++ published_events tr) w'.
Proof.
  induction tr as [|l tr IH]; intros evs w w' os H Hw; cbn in H.
  - inversion H; subst. now apply traceable_mono.
  - destruct (step w l) as [[w1 o]|] eqn:Hs; [|discriminate].
    destruct (run w1 tr) as [[w2 os']|] eqn:Hrun; [|discriminate].
    inversion H; subst.
    rewrite (published_events_cons l tr), app_assoc.
    eapply IH; [exact Hrun|]. eapply step_traceable; eauto.
Qed.

Lemma boot_traceable db t0 : traceable db [] (boot db t0).
Proof.
  repeat split; try constructor.
  apply Forall_forall. intros r Hr. now left.
Qed.

Lemma rows_of_run db t0 tr w os :
  run (boot db t0) tr = Some (w, os) ->
  forall r, r ∈ store w ->
    r ∈ db \/ exists e, e ∈ published_events tr /\ records e r.
Proof.
  intros H.
  destruct (run_traceable db tr [] _ _ _ H (boot_traceable db t0))
    as (_ & _ & Hs).
  cbn [app] in Hs. intros r Hr. exact (proj1 (Forall_forall _ _) Hs r Hr).
Qed.

(** X7. Whatever the run of an aggregator built on a store, with
    failures, restarts and crashes: every row of the store is a row that
    the store held at the beginning or records the topic, event_id and
    timestamp of an event that was handed to [publish], and every event
    in the queue was handed to [publish]. *)
Theorem rows_record_published_events db t0 tr w os :
  run (boot db t0) tr = Some (w, os) ->
  (forall r, r ∈ store w ->
     r ∈ db \/ exists e, e ∈ published_events tr /\ records e r)
  /\ (forall e, e ∈ queue (agg w) -> e ∈ published_events tr).
Proof.
  intros H. split; [now apply (rows_of_run db t0 tr w os)|].
  destruct (run_traceable db tr [] _ _ _ H (boot_traceable db t0))
    as (Hq & _ & _).
  cbn [app] in Hq. intros e He. exact (proj1 (Forall_forall _ _) Hq e He).
Qed.

Lemma rows_record_published_events_witness :
  let e := mkEvent "t" "e1" "2025-10-18T10:00:00Z" "src" "{}" in
  let tr := [LStart; LPublish [e; e]; LGet 0; LProcess 0 "n1" None] in
  exists w os,
    run (boot DedupStore.fresh 0) tr = Some (w, os)
    /\ forall r, r ∈ store w ->
         r ∈ DedupStore.fresh
         \/ exists e', e' ∈ published_events tr /\ records e' r.
Proof.
  intros e tr. eexists _, _. split; [reflexivity|].
  eapply (rows_record_published_events DedupStore.fresh 0 tr).
  reflexivity.
Defined.

(** *** Exactly once *)

Lemma published_count k tr :
  published k tr = length (List.filter (key_eqb k) (published_events tr)).
Proof.
  unfold published, published_events, list_sum.
  induction tr as [|l tr IH]; cbn; [done|].
  rewrite List.filter_app, length_app, IH. now destruct l.
Qed.

Lemma filter_key_elem_of k (evs : list Event) :
  1 <= length (List.filter (key_eqb k) evs) <-> k ∈ map event_key evs.
Proof.
  induction evs as [|e evs IH]; cbn.
  - split; [lia|]. intros H. inversion H.
  - rewrite elem_of_cons. unfold key_eqb at 1.
    case_bool_decide; cbn; split; intros H'.
    + now left.
    + lia.
    + right. now apply IH.
    + destruct H' as [->|H']; [done|]. now apply IH.
Qed.

Lemma no_restart_orderly tr :
  existsb is_restart tr = false -> orderly tr = true.
Proof.
  induction tr as [|l tr IH]; cbn; [done|].
  intros [Hl Hr]%orb_false_elim. apply andb_true_intro.
  split; [now destruct l|exact (IH Hr)].
Qed.

Lemma drained_known k db t0 tr w os :
  run (boot db t0) tr = Some (w, os) ->
  fault_free tr = true -> orderly tr = true -> drained w = true ->
  k ∈ map event_key (published_events tr) ->
  1 <= DedupStore.count_key k (store w).
Proof.
  intros H Hf Ho Hd Hk.
  apply filter_key_elem_of in Hk. rewrite <- published_count in Hk.
  assert (Hs : settled_or_pending k w).
  { eapply run_pending; eauto. }
  unfold settled_or_pending in Hs.
  rewrite (drained_pending k w Hd) in Hs. lia.
Qed.

(** X8. For an aggregator built on a new store and not restarted, after
    any run without failure of the persistence layer that ends drained:
    the store holds exactly one row for each distinct key handed to
    [publish] and no other row, [unique_processed] is the number of
    distinct keys, and [duplicate_dropped] accounts for every other
    event. *)
Theorem each_key_processed_exactly_once t0 tr w os :
  run (boot DedupStore.fresh t0) tr = Some (w, os) ->
  existsb is_restart tr = false ->
  fault_free tr = true ->
  drained w = true ->
  map row_key (store w)
    ≡ₚ remove_dups (map event_key (published_events tr))
  /\ unique_processed (agg w)
     = length (remove_dups (map event_key (published_events tr)))
  /\ unique_processed (agg w) + duplicate_dropped (agg w)
     = length (published_events tr).
Proof.
  intros H Hr Hf Hd.
  pose proof (no_restart_orderly _ Hr) as Ho.
  assert (Hperm : map row_key (store w)
                    ≡ₚ remove_dups (map event_key (published_events tr))).
  { apply NoDup_Permutation.
    - apply pk_unique_NoDup. intros k.
      apply (proj2 (run_count_key k _ _ _ _ H)).
      unfold DedupStore.count_key. cbn. lia.
    - apply NoDup_remove_dups.
    - intros k. rewrite elem_of_remove_dups. split.
      + intros Hk.
        change (k ∈ row_key <$> store w) in Hk.
        apply list_elem_of_fmap in Hk as (r & -> & Hin).
        destruct (rows_of_run _ _ _ _ _ H r Hin) as [Hin'|(e & He & Hrec)].
        * inversion Hin'.
        * change (row_key r ∈ event_key <$> published_events tr).
          apply list_elem_of_fmap. exists e. split; [|done].
          destruct Hrec as (E1 & E2 & _). unfold row_key, event_key.
          now rewrite E1, E2.
      + intros Hk. apply count_key_elem_of.
        eapply drained_known; eauto. }
  pose proof (run_unique_processed _ _ _ _ H Hr) as Hu.
  destruct (run_store_app _ _ _ _ H) as (added & E & L).
  change (store (boot DedupStore.fresh t0)) with (@nil Row) in E.
  cbn [app] in E.
  assert (Hlen : unique_processed (agg w) = length (store w)).
  { rewrite Hu, E, L. cbn. lia. }
  split; [exact Hperm|]. split.
  - rewrite Hlen, <- (length_map row_key). now rewrite Hperm.
  - pose proof (run_balanced _ _ _ _ H Hf
                  (boot_balanced DedupStore.fresh t0)) as Hb.
    unfold balanced in Hb. rewrite (drained_backlog _ Hd) in Hb.
    pose proof (run_received _ _ _ _ H Hr) as Hrec. cbn in Hrec. lia.
Qed.

Lemma each_key_processed_exactly_once_witness :
  let e1 := mkEvent "t" "e1" "2025-10-18T10:00:00Z" "src" "{}" in
  let e2 := mkEvent "t" "e2" "2025-10-18T10:00:00Z" "src" "{}" in
  let tr := [LStart; LPublish [e1; e2; e1]; LGet 0; LGet 1; LGet 2;
             LProcess 1 "n1" None; LProcess 0 "n2" None;
             LProcess 2 "n3" None; LWake 0; LPublish [e2]] in
  exists w os,
    run (boot DedupStore.fresh 0) tr = Some (w, os)
    /\ unique_processed (agg w) = 2
    /\ duplicate_dropped (agg w) = 2
    /\ unique_processed (agg w) + duplicate_dropped (agg w)
       = length (published_events tr).
Proof.
  intros e1 e2 tr. eexists _, _.
  split; [vm_compute; reflexivity|].
  do 2 (split; [reflexivity|]).
  refine (proj2 (proj2 (each_key_processed_exactly_once 0 tr _ _ _ _ _ _)));
    vm_compute; reflexivity.
Defined.

End RunRecords.

(** ** The fast path of publish *)

Section FastPath.

Lemma filter_all_known db (events : list Event) :
  Forall (fun e => known db e = true) events ->
  List.filter (known db) events = events
  /\ List.filter (fun e => negb (known db e)) events = [].
Proof.
  induction 1 as [|e events He _ [IH1 IH2]]; cbn; [done|].
  rewrite He. cbn. now rewrite IH1, IH2.
Qed.

Lemma filter_none_known db (events : list Event) :
  Forall (fun e => known db e = false) events ->
  List.filter (known db) events = []
  /\ List.filter (fun e => negb (known db e)) events = events.
Proof.
  induction 1 as [|e events He _ [IH1 IH2]]; cbn; [done|].
  rewrite He. cbn. now rewrite IH1, IH2.
Qed.

Lemma drained_queue w : drained w = true -> queue (agg w) = [].
Proof. unfold drained. now destruct (queue (agg w)). Qed.

(** X9. After a run without failure of the persistence layer and
    without crash that ends drained, events whose keys were handed to
    [publish] during the run are all rejected by a new [publish] call:
    nothing is enqueued, and they are counted as received and as
    duplicates. *)
Theorem redelivery_after_drain_is_rejected db t0 tr w os events :
  run (boot db t0) tr = Some (w, os) ->
  fault_free tr = true ->
  orderly tr = true ->
  drained w = true ->
  Forall (fun e => event_key e ∈ map event_key (published_events tr))
         events ->
  publish (store w) (agg w) events
  = (mkAgg [] (received (agg w) + length events) (unique_processed (agg w))
           (duplicate_dropped (agg w) + length events)
           (start_time (agg w)) (running (agg w)) (consumer_tasks (agg w)),
     PublishResult.mk 0 (length events) (length events)).
Proof.
  intros H Hf Ho Hd Hev.
  assert (Hk : Forall (fun e => known (store w) e = true) events).
  { eapply Forall_impl; [exact Hev|]. intros e He.
    apply known_count. eapply drained_known; eauto. }
  destruct (filter_all_known _ _ Hk) as [E1 E2].
  rewrite publish_closed, E1, E2, (drained_queue _ Hd). reflexivity.
Qed.

Lemma redelivery_after_drain_is_rejected_witness :
  let e := mkEvent "t" "e1" "2025-10-18T10:00:00Z" "src" "{}" in
  let e' := mkEvent "t" "e1" "2025-10-18T10:01:00Z" "other" "{1}" in
  let tr := [LStart; LPublish [e]; LGet 3; LProcess 3 "n1" None] in
  exists w os,
    run (boot DedupStore.fresh 0) tr = Some (w, os)
    /\ (publish (store w) (agg w) [e'; e]).2 = PublishResult.mk 0 2 2.
Proof.
  intros e e' tr. eexists _, _.
  split; [vm_compute; reflexivity|].
  rewrite (redelivery_after_drain_is_rejected DedupStore.fresh 0 tr _ _
             [e'; e] ltac:(vm_compute; reflexivity)
             ltac:(vm_compute; reflexivity) ltac:(vm_compute; reflexivity)
             ltac:(vm_compute; reflexivity)).
  - reflexivity.
  - repeat constructor.
Defined.

(** X10. [publish] consults the store only, never the queue: its result
    is the same for every state of the aggregator, and events whose keys
    the store does not hold are all accepted and enqueued in their order,
    also when a key occurs several times in the list or is queued
    already. *)
Theorem publish_consults_store_only db a events :
  (forall a', (publish db a' events).2 = (publish db a events).2)
  /\ (Forall (fun e => known db e = false) events ->
      queue (publish db a events).1 = queue a ++ events
      /\ (publish db a events).2 = PublishResult.mk (length events) 0 0).
Proof.
  split.
  - intros a'. now rewrite !publish_closed.
  - intros Hk. destruct (filter_none_known _ _ Hk) as [E1 E2].
    now rewrite publish_closed, E1, E2.
Qed.

Lemma publish_consults_store_only_witness :
  let e := mkEvent "t" "e1" "2025-10-18T10:00:00Z" "src" "{}" in
  (publish DedupStore.fresh (mkAgg [e] 1 0 0 0 true []) [e; e]).2
  = PublishResult.mk 2 0 0.
Proof.
  intros e.
  apply (publish_consults_store_only DedupStore.fresh
           (mkAgg [e] 1 0 0 0 true []) [e; e]).
  repeat constructor.
Defined.

End FastPath.

(** ** Workers that have exited *)

Section Exited.

Lemma finished_no_turn w i s :
  Forall (fun t => state t = Finished) (tasks w) ->
  task_state_at w i = Some s -> s = Finished.
Proof.
  intros Hall Hi. apply task_state_at_Some in Hi as (t & Ht & <-).
  exact (Forall_lookup_1 _ _ _ _ Hall Ht).
Qed.

Lemma step_exited w l w' o :
  Forall (fun t => state t = Finished) (tasks w) ->
  step w l = Some (w', o) ->
  is_start l = false -> is_restart l = false ->
  is_call l = true
  /\ store w' = store w /\ tasks w' = tasks w
  /\ unique_processed (agg w') = unique_processed (agg w)
  /\ queue (agg w')
     = queue (agg w)
       ++ List.filter (fun e => negb (known (store w) e))
            (published_events [l]).
Proof.
  intros Hall H Hs Hr.
  destruct l; try discriminate Hs; try discriminate Hr; step_inv H;
    try match goal with
        | E : task_state_at _ _ = Some _ |- _ =>
            apply (finished_no_turn _ _ _ Hall) in E; discriminate E
        end.
  - rewrite stop_world. cbn. now rewrite app_nil_r.
  - frame_facts. now rewrite app_nil_r.
Qed.

(** X11. Once every worker task has exited, and likewise when [start]
    was never called, nothing is processed until [start] is called or the
    process is restarted: the only steps are calls of [publish] and
    [stop], the store, the tasks and [unique_processed] stay as they are,
    and the events that [publish] accepts pile up in the queue. *)
Theorem exited_workers_process_nothing tr : forall w w' os,
  Forall (fun t => state t = Finished) (tasks w) ->
  run w tr = Some (w', os) ->
  existsb is_start tr = false ->
  existsb is_restart tr = false ->
  forallb is_call tr = true
  /\ store w' = store w /\ tasks w' = tasks w
  /\ unique_processed (agg w') = unique_processed (agg w)
  /\ queue (agg w')
     = queue (agg w)
       ++ List.filter (fun e => negb (known (store w) e))
            (published_events tr).
Proof.
  induction tr as [|l tr IH]; intros w w' os Hall H Hs Hr;
    cbn in H, Hs, Hr.
  - inversion H; subst. cbn. now rewrite app_nil_r.
  - apply orb_false_elim in Hs as [Hs1 Hs].
    apply orb_false_elim in Hr as [Hr1 Hr].
    destruct (step w l) as [[w1 o]|] eqn:Hstep; [|discriminate].
    destruct (run w1 tr) as [[w2 os']|] eqn:Hrun; [|discriminate].
    inversion H; subst.
    destruct (step_exited _ _ _ _ Hall Hstep Hs1 Hr1)
      as (C1 & S1 & T1 & U1 & Q1).
    rewrite <- T1 in Hall.
    destruct (IH _ _ _ Hall Hrun Hs Hr) as (C2 & S2 & T2 & U2 & Q2).
    cbn [forallb]. rewrite C1, C2, S2, S1, T2, T1, U2, U1, Q2, Q1, S1.
    rewrite (published_events_cons l tr), List.filter_app, app_assoc.
    done.
Qed.

Lemma exited_workers_process_nothing_witness :
  let e := mkEvent "t" "e1" "2025-10-18T10:00:00Z" "src" "{}" in
  exists w os,
    run (boot DedupStore.fresh 0) [LPublish [e]; LStop; LPublish [e]]
    = Some (w, os)
    /\ queue (agg w) = [e; e]
    /\ unique_processed (agg w) = 0.
Proof.
  intros e. eexists _, _.
  split; [vm_compute; reflexivity|]. split; [reflexivity|].
  refine (proj1 (proj2 (proj2 (proj2
            (exited_workers_process_nothing
               [LPublish [e]; LStop; LPublish [e]]
               (boot DedupStore.fresh 0) _ _ _ _ _ _)))));
    try (vm_compute; reflexivity).
  constructor.
Defined.

End Exited.

(** ** Progress of a worker *)

Section Progress.

Lemma process_event_known now db a e :
  known db e = true ->
  _process_event None now db a e
  = (db, incr_duplicate_dropped a, Return false).
Proof.
  intros H. unfold _process_event. now rewrite mark_processed_dup.
Qed.

Lemma process_event_unknown now db a e :
  known db e = false ->
  _process_event None now db a e
  = (db ++ [(topic e, event_id e, timestamp e, now)],
     incr_unique_processed a, Return true).
Proof.
  intros H. unfold _process_event. now rewrite mark_processed_new.
Qed.

Lemma task_at_set_task w i s :
  is_Some (tasks w !! i) -> task_state_at (set_task i s w) i = Some s.
Proof. intros [t Ht]. now apply (task_state_at_set_task_eq w i s t). Qed.

Lemma set_task_is_Some w i j s :
  is_Some (tasks w !! j) -> is_Some (tasks (set_task i s w) !! j).
Proof.
  intros Hj. unfold set_task. destruct (tasks w !! i) eqn:E; [|done].
  cbn. apply lookup_lt_is_Some. rewrite length_insert.
  now apply lookup_lt_is_Some.
Qed.

(** One turn of the loop of task [i] on the event at the head of the
    queue. *)
Lemma worker_turn w i now e q :
  task_state_at w i = Some Waiting ->
  queue (agg w) = e :: q ->
  exists w' os,
    run w (if known (store w) e
           then [LGet i; LProcess i now None]
           else [LGet i; LProcess i now None; LWake i])
    = Some (w', os)
    /\ store w'
       = (if known (store w) e then store w
          else store w ++ [(topic e, event_id e, timestamp e, now)])
    /\ queue (agg w') = q
    /\ task_state_at w' i = Some Waiting
    /\ (forall j, j <> i -> task_state_at w' j = task_state_at w j)
    /\ received (agg w') = received (agg w)
    /\ running (agg w') = running (agg w)
    /\ unique_processed (agg w') + duplicate_dropped (agg w')
       = S (unique_processed (agg w) + duplicate_dropped (agg w)).
Proof.
  intros Hi Hq.
  assert (Hsome : is_Some (tasks w !! i)).
  { apply task_state_at_Some in Hi as (t & Ht & _). eauto. }
  set (w1 := set_task i (Holding e)
               (mkWorld (store w) (set_queue q (agg w)) (tasks w))).
  assert (S1 : step w (LGet i) = Some (w1, OSilent)).
  { cbn. now rewrite Hi, Hq. }
  assert (H1 : task_state_at w1 i = Some (Holding e)).
  { now apply task_at_set_task. }
  assert (Hsome1 : is_Some (tasks w1 !! i)).
  { now apply set_task_is_Some. }
  assert (St1 : store w1 = store w) by exact (set_task_store _ _ _).
  assert (A1 : agg w1 = set_queue q (agg w)) by exact (set_task_agg _ _ _).
  destruct (known (store w) e) eqn:Hk.
  - set (w2 := set_task i Waiting
                 (mkWorld (store w1) (incr_duplicate_dropped (agg w1))
                          (tasks w1))).
    assert (S2 : step w1 (LProcess i now None)
                 = Some (w2, OProcessed e false)).
    { cbn. rewrite H1, process_event_known; [done|]. now rewrite St1. }
    exists w2, [OSilent; OProcessed e false].
    split; [cbn [run]; now rewrite S1, S2|].
    unfold w2. rewrite set_task_store, set_task_agg, St1, A1.
    repeat split; try reflexivity.
    + now apply task_at_set_task.
    + intros j Hj. rewrite task_state_at_set_task_ne by done.
      unfold w1, task_state_at at 1. cbn [tasks].
      change (task_state_at w1 j = task_state_at w j).
      unfold w1. now rewrite task_state_at_set_task_ne.
    + cbn. lia.
  - set (w2 := set_task i Sleeping
                 (mkWorld (store w1
                             ++ [(topic e, event_id e, timestamp e, now)])
                          (incr_unique_processed (agg w1)) (tasks w1))).
    assert (S2 : step w1 (LProcess i now None)
                 = Some (w2, OProcessed e true)).
    { cbn. rewrite H1, process_event_unknown; [done|]. now rewrite St1. }
    assert (H2 : task_state_at w2 i = Some Sleeping).
    { now apply task_at_set_task. }
    assert (Hsome2 : is_Some (tasks w2 !! i)).
    { now apply set_task_is_Some. }
    assert (S3 : step w2 (LWake i) = Some (set_task i Waiting w2, OSilent)).
    { cbn. now rewrite H2. }
    assert (St2 : store w2
                  = store w ++ [(topic e, event_id e, timestamp e, now)]).
    { unfold w2. now rewrite set_task_store, <- St1. }
    assert (A2 : agg w2 = incr_unique_processed (set_queue q (agg w))).
    { unfold w2. now rewrite set_task_agg, <- A1. }
    exists (set_task i Waiting w2), [OSilent; OProcessed e true; OSilent].
    split; [cbn [run]; now rewrite S1, S2, S3|].
    rewrite set_task_store, set_task_agg, St2, A2.
    repeat split; try reflexivity.
    + now apply task_at_set_task.
    + intros j Hj. rewrite task_state_at_set_task_ne by done.
      unfold w2. rewrite task_state_at_set_task_ne by done.
      change (task_state_at w1 j = task_state_at w j).
      unfold w1. now rewrite task_state_at_set_task_ne.
Qed.

Lemma run_app tr1 : forall tr2 w w1 os1 w2 os2,
  run w tr1 = Some (w1, os1) -> run w1 tr2 = Some (w2, os2) ->
  run w (tr1 ++ tr2) = Some (w2, os1 ++ os2).
Proof.
  induction tr1 as [|l tr1 IH]; intros tr2 w w1 os1 w2 os2 H1 H2;
    cbn in H1 |- *.
  - now inversion H1; subst.
  - destruct (step w l) as [[w' o]|]; [|discriminate].
    destruct (run w' tr1) as [[w'' os']|] eqn:Hrun; [|discriminate].
    inversion H1; subst. now rewrite (IH _ _ _ _ _ _ Hrun H2).
Qed.

Lemma drain_schedule_cons i now db e q :
  drain_schedule i now db (e :: q)
  = (if known db e
     then [LGet i; LProcess i now None]
     else [LGet i; LProcess i now None; LWake i])
    ++ drain_schedule i now
         (if known db e then db
          else db ++ [(topic e, event_id e, timestamp e, now)]) q.
Proof. cbn. now destruct (known db e). Qed.

Lemma known_app db more e :
  known db e = true -> known (db ++ more) e = true.
Proof.
  rewrite !known_count, count_key_app. lia.
Qed.

Lemma one_worker_queue i now q : forall w,
  task_state_at w i = Some Waiting ->
  queue (agg w) = q ->
  exists w' os,
    run w (drain_schedule i now (store w) q) = Some (w', os)
    /\ queue (agg w') = []
    /\ task_state_at w' i = Some Waiting
    /\ (forall j, j <> i -> task_state_at w' j = task_state_at w j)
    /\ received (agg w') = received (agg w)
    /\ running (agg w') = running (agg w)
    /\ unique_processed (agg w') + duplicate_dropped (agg w')
       = unique_processed (agg w) + duplicate_dropped (agg w) + length q
    /\ Forall (fun e => known (store w') e = true) q.
Proof.
  induction q as [|e q IH]; intros w Hi Hq.
  - exists w, []. cbn. repeat split; try done; try lia.
  - destruct (worker_turn w i now e q Hi Hq)
      as (w1 & os1 & R1 & St1 & Q1 & T1 & O1 & Rc1 & Rn1 & C1).
    destruct (IH w1 T1 Q1)
      as (w2 & os2 & R2 & Q2 & T2 & O2 & Rc2 & Rn2 & C2 & K2).
    exists w2, (os1 ++ os2).
    split.
    { rewrite drain_schedule_cons, <- St1. eapply run_app; eauto. }
    repeat split; try done.
    + intros j Hj. now rewrite O2, O1.
    + congruence.
    + congruence.
    + cbn [length]. lia.
    + constructor; [|exact K2].
      destruct (run_store_app _ _ _ _ R2) as (added & E & _).
      rewrite E. apply known_app. rewrite St1.
      destruct (known (store w) e) eqn:Hk; [done|].
      apply known_count. rewrite count_key_app, count_key_singleton.
      unfold row_key, event_key. cbn.
      rewrite bool_decide_eq_true_2 by done. lia.
Qed.

Lemma drain_schedule_fault_free i now q : forall db,
  fault_free (drain_schedule i now db q) = true.
Proof.
  induction q as [|e q IH]; intros db; cbn; [done|].
  destruct (known db e); cbn; apply IH.
Qed.

(** X12. A single task that waits at the head of its loop empties the
    queue when it is scheduled: on the schedule that gives it, for each
    queued event in order, the delivery, the processing and the end of the
    sleep, the run is possible without failure of the persistence layer;
    the queue ends empty with the task back at the head of its loop, the
    other tasks untouched, [received] unchanged, every queued event counted
    once in [unique_processed] or [duplicate_dropped], and its key in the
    store; when no task holds an event the aggregator has drained. *)
Theorem one_worker_drains_queue w i now :
  task_state_at w i = Some Waiting ->
  exists w' os,
    run w (drain_schedule i now (store w) (queue (agg w))) = Some (w', os)
    /\ fault_free (drain_schedule i now (store w) (queue (agg w))) = true
    /\ queue (agg w') = []
    /\ task_state_at w' i = Some Waiting
    /\ (forall j, j <> i -> task_state_at w' j = task_state_at w j)
    /\ received (agg w') = received (agg w)
    /\ unique_processed (agg w') + duplicate_dropped (agg w')
       = unique_processed (agg w) + duplicate_dropped (agg w)
         + length (queue (agg w))
    /\ Forall (fun e => known (store w') e = true) (queue (agg w))
    /\ (tally flying (tasks w) = 0 -> drained w' = true).
Proof.
  intros Hi.
  destruct (one_worker_queue i now (queue (agg w)) w Hi eq_refl)
    as (w' & os & R & Q & T & O & Rc & _ & C & K).
  exists w', os. split; [exact R|].
  split; [apply drain_schedule_fault_free|].
  repeat split; try done.
  intros Hfly. unfold drained. rewrite Q.
  apply forallb_forall. intros t Hin.
  apply list_elem_of_In, list_elem_of_lookup in Hin as [j Hj].
  assert (Hs : task_state_at w' j = Some (state t)).
  { unfold task_state_at. now rewrite Hj. }
  destruct (decide (j = i)) as [->|Hne].
  - rewrite T in Hs. now inversion Hs.
  - rewrite O in Hs by done.
    apply task_state_at_Some in Hs as (t0 & Ht0 & Hst).
    rewrite <- Hst.
    destruct (state t0) eqn:Est; try done.
    exfalso. clear - Hfly Ht0 Est.
    assert (Hle : flying t0 <= tally flying (tasks w)).
    { clear Hfly. revert j Ht0. unfold tally, list_sum.
      induction (tasks w) as [|x l IH]; intros [|j] Hj;
        try discriminate Hj; simpl in *.
      - simplify_eq. lia.
      - specialize (IH _ Hj). lia. }
    unfold flying in Hle at 1. rewrite Est in Hle. cbn in Hle. lia.
Qed.

Lemma one_worker_drains_queue_witness :
  let e1 := mkEvent "t" "e1" "2025-10-18T10:00:00Z" "src" "{}" in
  let e2 := mkEvent "t" "e2" "2025-10-18T10:00:00Z" "src" "{}" in
  let w := mkWorld DedupStore.fresh (mkAgg [e1; e2; e1] 3 0 0 0 true [0])
             [mkTask 0 Waiting] in
  exists w' os,
    run w (drain_schedule 0 "n" (store w) (queue (agg w))) = Some (w', os)
    /\ queue (agg w') = []
    /\ task_state_at w' 0 = Some Waiting.
Proof.
  intros e1 e2 w.
  destruct (one_worker_drains_queue w 0 "n"%string eq_refl)
    as (w' & os & R & _ & Q & T & _).
  exists w', os. repeat split; assumption.
Defined.

(** *** Shutdown *)

Lemma exit_turn w j :
  task_state_at w j = Some Waiting ->
  running (agg w) = false -> queue (agg w) = [] ->
  step w (LExit j) = Some (set_task j Finished w, OSilent).
Proof. intros Hj Hr Hq. cbn. now rewrite Hj, Hr, Hq. Qed.

Lemma exit_all m : forall k w,
  running (agg w) = false -> queue (agg w) = [] ->
  (forall j, k <= j < k + m -> task_state_at w j = Some Waiting) ->
  exists w' os,
    run w (map LExit (seq k m)) = Some (w', os)
    /\ agg w' = agg w /\ store w' = store w
    /\ (forall j, k <= j < k + m -> task_state_at w' j = Some Finished)
    /\ (forall j, ~ (k <= j < k + m) ->
          task_state_at w' j = task_state_at w j).
Proof.
  induction m as [|m IH]; intros k w Hr Hq Hall.
  - exists w, []. cbn. repeat split; try done. intros j Hj. lia.
  - assert (Hk : task_state_at w k = Some Waiting) by (apply Hall; lia).
    pose proof (exit_turn w k Hk Hr Hq) as S1.
    set (w1 := set_task k Finished w) in *.
    assert (A1 : agg w1 = agg w) by apply set_task_agg.
    assert (St1 : store w1 = store w) by apply set_task_store.
    assert (N1 : forall j, j <> k -> task_state_at w1 j = task_state_at w j).
    { intros j Hj. unfold w1. now rewrite task_state_at_set_task_ne. }
    assert (F1 : task_state_at w1 k = Some Finished).
    { apply task_at_set_task.
      apply task_state_at_Some in Hk as (t & Ht & _). eauto. }
    destruct (IH (S k) w1) as (w2 & os2 & R2 & A2 & St2 & F2 & N2).
    + now rewrite A1.
    + now rewrite A1.
    + intros j Hj. rewrite N1 by lia. apply Hall. lia.
    + exists w2, (OSilent :: os2). split.
      { cbn [seq map run]. now rewrite S1, R2. }
      repeat split; try congruence.
      * intros j Hj. destruct (decide (j = k)) as [->|Hne].
        -- rewrite N2 by lia. exact F1.
        -- apply F2. lia.
      * intros j Hj. rewrite N2 by lia. apply N1. lia.
Qed.

(** X13. A shutdown can complete: from a state in which every task
    waits at the head of its loop and there is at least one task, the
    schedule on which [stop] is called, the first task empties the queue
    and then every task leaves its loop is possible; after it the queue is
    empty, every event that was queued is counted in [unique_processed] or
    [duplicate_dropped], every task has finished, and the tasks that
    [stop] gathers are done. *)
Theorem shutdown_completes w now :
  tasks w <> [] ->
  Forall (fun t => state t = Waiting) (tasks w) ->
  exists w' os,
    run w (shutdown_schedule now w) = Some (w', os)
    /\ queue (agg w') = []
    /\ Forall (fun t => state t = Finished) (tasks w')
    /\ (stop w').2 = StopReturned
    /\ running (agg w') = false
    /\ unique_processed (agg w') + duplicate_dropped (agg w')
       = unique_processed (agg w) + duplicate_dropped (agg w)
         + length (queue (agg w)).
Proof.
  intros Hne Hall.
  assert (Hw : forall j, j < length (tasks w) ->
                 task_state_at w j = Some Waiting).
  { intros j Hj. unfold task_state_at.
    destruct (lookup_lt_is_Some_2 _ _ Hj) as [t Ht]. rewrite Ht. cbn.
    f_equal. exact (Forall_lookup_1 _ _ _ _ Hall Ht). }
  assert (Hlen : 0 < length (tasks w)).
  { destruct (tasks w); [done|cbn; lia]. }
  set (w0 := mkWorld (store w) (set_running false (agg w)) (tasks w)).
  assert (S0 : step w LStop = Some (w0, OSilent)).
  { cbn. now rewrite stop_world. }
  destruct (one_worker_queue 0 now (queue (agg w)) w0 (Hw 0 Hlen) eq_refl)
    as (w1 & os1 & R1 & Q1 & T1 & O1 & _ & Rn1 & C1 & _).
  destruct (exit_all (length (tasks w)) 0 w1) as (w2 & os2 & R2 & A2 & _ & F2 & N2).
  { now rewrite Rn1. }
  { exact Q1. }
  { intros j Hj. destruct (decide (j = 0)) as [->|Hj0]; [exact T1|].
    rewrite O1 by done. apply (Hw j). lia. }
  assert (Hfin : Forall (fun t => state t = Finished) (tasks w2)).
  { apply Forall_lookup. intros j t Ht.
    assert (Hs : task_state_at w2 j = Some (state t)).
    { unfold task_state_at. now rewrite Ht. }
    destruct (decide (j < length (tasks w))) as [Hj|Hj].
    - rewrite F2 in Hs by lia. congruence.
    - rewrite N2, O1 in Hs by lia.
      unfold task_state_at in Hs. cbn [tasks w0] in Hs.
      rewrite lookup_ge_None_2 in Hs by lia. discriminate Hs. }
  exists w2, (OSilent :: os1 ++ os2). split.
  { unfold shutdown_schedule. cbn [run]. rewrite S0.
    change (store w) with (store w0).
    now rewrite (run_app _ _ _ _ _ _ _ R1 R2). }
  rewrite A2. repeat split; try done.
  - unfold stop. destruct (consumer_tasks (agg w2)) as [|c cs]; [done|].
    cbn [snd].
    assert (Hg : gather_done (tasks w2) (c :: cs) = true).
    { unfold gather_done. apply forallb_forall. intros j _.
      destruct (tasks w2 !! j) as [t|] eqn:Ht; [|done].
      now rewrite (Forall_lookup_1 _ _ _ _ Hfin Ht). }
    now rewrite Hg.
Qed.

Lemma shutdown_completes_witness :
  let e1 := mkEvent "t" "e1" "2025-10-18T10:00:00Z" "src" "{}" in
  let w := mkWorld DedupStore.fresh (mkAgg [e1; e1] 2 0 0 0 true [0; 1])
             [mkTask 0 Waiting; mkTask 1 Waiting] in
  exists w' os,
    run w (shutdown_schedule "n" w) = Some (w', os)
    /\ queue (agg w') = []
    /\ Forall (fun t => state t = Finished) (tasks w').
Proof.
  intros e1 w.
  destruct (shutdown_completes w "n"%string)
    as (w' & os & R & Q & F & _).
  - discriminate.
  - repeat constructor.
  - exists w', os. repeat split; assumption.
Defined.

End Progress.

(** ** What get_events lists after a run *)

Section Listing.

Lemma elem_of_get_processed_events db tp (r : Row) :
  r ∈ db ->
  r ∈ DedupStore.get_processed_events db None
  /\ (row_topic r = tp -> tp <> ""%string ->
      r ∈ DedupStore.get_processed_events db (Some tp)).
Proof.
  intros Hr. split.
  - unfold DedupStore.get_processed_events. cbn.
    now rewrite (order_by_perm db).
  - intros Ht Hne. unfold DedupStore.get_processed_events, DedupStore.truthy.
    rewrite (bool_decide_eq_false_2 _ Hne). cbn [negb default].
    rewrite (order_by_perm _).
    apply list_elem_of_In, List.filter_In. split.
    + now apply list_elem_of_In.
    + unfold DedupStore.topic_is. now rewrite bool_decide_eq_true_2.
Qed.

(** X14. After a run without failure of the persistence layer and
    without crash that ends drained, every event that was handed to
    [publish] is listed: [get_events] without topic returns a record with
    its (topic, event_id), and so does [get_events] with its topic when the
    topic is not empty. *)
Theorem published_events_are_listed db t0 tr w os e :
  run (boot db t0) tr = Some (w, os) ->
  fault_free tr = true ->
  orderly tr = true ->
  drained w = true ->
  e ∈ published_events tr ->
  (exists d, d ∈ get_events (store w) None /\ dict_key d = event_key e)
  /\ (topic e <> ""%string ->
      exists d, d ∈ get_events (store w) (Some (topic e))
                /\ dict_key d = event_key e).
Proof.
  intros H Hf Ho Hd He.
  assert (Hk : event_key e ∈ map event_key (published_events tr)).
  { change (event_key e ∈ event_key <$> published_events tr).
    now apply list_elem_of_fmap_2. }
  pose proof (drained_known _ _ _ _ _ _ H Hf Ho Hd Hk) as Hc.
  apply count_key_elem_of in Hc.
  change (event_key e ∈ row_key <$> store w) in Hc.
  apply list_elem_of_fmap in Hc as (r & Hkey & Hr).
  destruct (elem_of_get_processed_events (store w) (topic e) r Hr)
    as [Hall Htp].
  split.
  - exists (to_dict r). split; [|now rewrite Hkey].
    unfold get_events.
    change (to_dict r
              ∈ to_dict <$> DedupStore.get_processed_events (store w) None).
    now apply list_elem_of_fmap_2.
  - intros Hne. exists (to_dict r). split; [|now rewrite Hkey].
    unfold get_events.
    change (to_dict r
              ∈ to_dict
                  <$> DedupStore.get_processed_events (store w)
                        (Some (topic e))).
    apply list_elem_of_fmap_2, Htp; [|done].
    unfold event_key, row_key in Hkey. congruence.
Qed.

Lemma published_events_are_listed_witness :
  let e := mkEvent "t" "e1" "2025-10-18T10:00:00Z" "src" "{}" in
  let tr := [LStart; LPublish [e]; LGet 0; LProcess 0 "n1" None] in
  exists w os,
    run (boot DedupStore.fresh 0) tr = Some (w, os)
    /\ exists d, d ∈ get_events (store w) None
                 /\ dict_key d = event_key e.
Proof.
  intros e tr. eexists _, _.
  split; [vm_compute; reflexivity|].
  refine (proj1 (published_events_are_listed DedupStore.fresh 0 tr _ _ e
                   _ _ _ _ _)); try (vm_compute; reflexivity).
  repeat constructor.
Defined.

Lemma NoDup_key_inj (l : list Row) :
  NoDup (map row_key l) ->
  forall x y, x ∈ l -> y ∈ l -> row_key x = row_key y -> x = y.
Proof.
  induction l as [|r l IH]; cbn [map]; intros Hnd x y Hx Hy Hk.
  - inversion Hx.
  - apply NoDup_cons in Hnd as [Hr Hnd].
    assert (Hin : forall z, z ∈ l -> row_key z ∈ map row_key l).
    { intros z Hz. change (row_key z ∈ row_key <$> l).
      now apply list_elem_of_fmap_2. }
    apply elem_of_cons in Hx as [->|Hx], Hy as [->|Hy].
    + done.
    + exfalso. apply Hr. rewrite Hk. auto.
    + exfalso. apply Hr. rewrite <- Hk. auto.
    + now apply IH.
Qed.

(** X15. The first record of a key wins: a row of the store is still a
    row of the store after any run, with its timestamp and its
    [processed_at], and it stays the only row with its key, whatever
    events with the same key and other timestamps are published and
    processed in the run. *)
Theorem first_record_wins w tr w' os r :
  run w tr = Some (w', os) ->
  (forall k, DedupStore.count_key k (store w) <= 1) ->
  r ∈ store w ->
  r ∈ store w'
  /\ forall r', r' ∈ store w' -> row_key r' = row_key r -> r' = r.
Proof.
  intros H Hpk Hr.
  destruct (run_store_app _ _ _ _ H) as (added & E & _).
  assert (Hr' : r ∈ store w').
  { rewrite E. apply elem_of_app. now left. }
  split; [exact Hr'|].
  assert (Hnd : NoDup (map row_key (store w'))).
  { apply pk_unique_NoDup. intros k.
    apply (proj2 (run_count_key k _ _ _ _ H)). apply Hpk. }
  intros r' Hin Hk. now apply (NoDup_key_inj _ Hnd).
Qed.

Lemma first_record_wins_witness :
  let e := mkEvent "t" "e1" "2025-10-18T10:01:00Z" "src" "second" in
  let w := boot [("t", "e1", "2025-10-18T10:00:00Z", "n0")]%string 0 in
  let tr := [LStart; LCrash 1; LStart; LPublish [e]] in
  exists w' os,
    run w tr = Some (w', os)
    /\ ("t", "e1", "2025-10-18T10:00:00Z", "n0")%string ∈ store w'.
Proof.
  intros e w tr. eexists _, _.
  split; [vm_compute; reflexivity|].
  refine (proj1 (first_record_wins w tr _ _ _ _ _ _)).
  - vm_compute; reflexivity.
  - intros k. unfold w, boot, DedupStore._init_db. cbn [store].
    rewrite count_key_singleton. case_bool_decide; lia.
  - repeat constructor.
Defined.

End Listing.

(** ** Idempotency, on the counter *)

Section IdempotencyCounter.

Variable k : Key.

Lemma unique_increments_one o :
  unique_increments k [o]
  = match o with
    | OProcessed e true => if key_eqb k e then 1 else 0
    | _ => 0
    end.
Proof.
  unfold unique_increments. destruct o as [| |e [|]|]; cbn; try done.
  now destruct (key_eqb k e).
Qed.

Lemma unique_increments_cons o os :
  unique_increments k (o :: os)
  = unique_increments k [o] + unique_increments k os.
Proof.
  unfold unique_increments. change (o :: os) with ([o] ++ os).
  now rewrite List.filter_app, length_app.
Qed.

(** The growth of the counter in a step that processes an event with
    key [k] is what the step lets one observe. *)
Lemma step_counter_increment w l w' o :
  step w l = Some (w', o) ->
  (if processes_key k w l
   then unique_processed (agg w') - unique_processed (agg w) else 0)
  = unique_increments k [o].
Proof.
  intros H. rewrite unique_increments_one.
  destruct l; try (step_inv H; reflexivity).
  unfold processes_key. step_inv H;
    repeat match goal with
           | E : task_state_at _ _ = Some _ |- _ => rewrite E; clear E
           | E : _process_event _ _ _ _ _ = (_, _, Return true) |- _ =>
               apply process_event_new in E as (? & -> & ->)
           | E : _process_event _ _ _ _ _ = (_, _, Return false) |- _ =>
               apply process_event_dup in E as (-> & -> & ?)
           | E : _process_event _ _ _ _ _ = (_, _, Raise _) |- _ =>
               apply process_event_err in E as (-> & -> & ?)
           end;
    rewrite set_task_agg; cbn; destruct (key_eqb k e); lia.
Qed.

Lemma run_counter_increments tr : forall w w' os,
  run w tr = Some (w', os) ->
  counter_increments k w tr = unique_increments k os.
Proof.
  induction tr as [|l tr IH]; intros w w' os H; cbn in H |- *.
  - now inversion H; subst.
  - destruct (step w l) as [[w1 o]|] eqn:Hs; [|discriminate].
    destruct (run w1 tr) as [[w2 os']|] eqn:Hrun; [|discriminate].
    inversion H; subst.
    rewrite (step_counter_increment _ _ _ _ Hs), (IH _ _ _ Hrun).
    now rewrite (unique_increments_cons o os').
Qed.

Lemma step_processed_traceable db0 evs w l w' e b :
  step w l = Some (w', OProcessed e b) -> traceable db0 evs w -> e ∈ evs.
Proof.
  intros H Hw. destruct l; step_inv H; step_facts;
    eapply traceable_held; eauto.
Qed.

Lemma run_processed_published db0 tr : forall evs w w' os,
  run w tr = Some (w', os) -> traceable db0 evs w ->
  Forall (fun o => forall e b, o = OProcessed e b ->
                     e ∈ evs ++ published_events tr) os.
Proof.
  induction tr as [|l tr IH]; intros evs w w' os H Hw; cbn in H.
  - inversion H; subst. constructor.
  - destruct (step w l) as [[w1 o]|] eqn:Hs; [|discriminate].
    destruct (run w1 tr) as [[w2 os']|] eqn:Hrun; [|discriminate].
    inversion H; subst.
    rewrite (published_events_cons l tr), app_assoc.
    constructor.
    + intros e b ->. apply elem_of_app. left. apply elem_of_app. left.
      eapply step_processed_traceable; eauto.
    + eapply IH; [exact Hrun|]. eapply step_traceable; eauto.
Qed.

Lemma new_all_key os :
  Forall (fun o => forall e b, o = OProcessed e b -> event_key e = k) os ->
  length (List.filter is_new os) = unique_increments k os.
Proof.
  induction 1 as [|o os Ho _ IH]; [done|].
  rewrite (unique_increments_cons o os), unique_increments_one, <- IH.
  destruct o as [| |e [|]|]; cbn; try done.
  unfold key_eqb. now rewrite bool_decide_eq_true_2 by eauto.
Qed.

(** C1, as the code has it. Take a store with at most one row with
    key [k], any aggregator built on it, and any run in which events with
    key [k] are published at least once, among any other events, with any
    interleaving of the workers and any number of restarts on the same
    store once drained; no operation of the persistence layer fails and the
    process is not ended with events still to be processed. When the run
    ends drained, the store holds exactly one row with key [k]; over the
    whole run, restarts included, the counter [unique_processed] grew by
    exactly one in the steps that process an event with key [k] when the
    store did not hold the key at the beginning, and by nothing when it
    did; and when the aggregator was not restarted and every published
    event has key [k], the counter itself ends at one, or at zero for a
    key that the store held. *)
Theorem same_key_processed_once db t0 tr w os :
  DedupStore.count_key k db <= 1 ->
  run (boot db t0) tr = Some (w, os) ->
  fault_free tr = true ->
  orderly tr = true ->
  1 <= published k tr ->
  drained w = true ->
  DedupStore.count_key k (store w) = 1
  /\ (DedupStore.count_key k db = 0 -> unique_increments k os = 1)
  /\ (DedupStore.count_key k db = 1 -> unique_increments k os = 0)
  /\ (DedupStore.count_key k db = 0 ->
      counter_increments k (boot db t0) tr = 1)
  /\ (DedupStore.count_key k db = 1 ->
      counter_increments k (boot db t0) tr = 0)
  /\ (existsb is_restart tr = false ->
      Forall (fun e => event_key e = k) (published_events tr) ->
      unique_processed (agg w) + DedupStore.count_key k db = 1).
Proof.
  intros H0 Hrun Hf Ho Hp Hd.
  destruct (run_count_key k _ _ _ _ Hrun) as [Hc Hle].
  change (store (boot db t0)) with db in Hc, Hle.
  assert (Hs : settled_or_pending k w).
  { eapply run_pending; eauto. }
  unfold settled_or_pending in Hs.
  rewrite (drained_pending k w Hd) in Hs.
  rewrite (run_counter_increments _ _ _ _ Hrun).
  split; [lia|]. split; [lia|]. split; [lia|]. split; [lia|].
  split; [lia|].
  intros Hr Hall.
  pose proof (run_unique_processed _ _ _ _ Hrun Hr) as Hu.
  pose proof (run_processed_published db tr [] _ _ _ Hrun
                (boot_traceable db t0)) as Hpub.
  cbn [app] in Hpub.
  assert (Hkeys : Forall (fun o => forall e b, o = OProcessed e b ->
                                     event_key e = k) os).
  { eapply Forall_impl; [exact Hpub|]. intros o Ho' e b Heq.
    exact (proj1 (Forall_forall _ _) Hall e (Ho' e b Heq)). }
  rewrite Hu, (new_all_key _ Hkeys). cbn. lia.
Qed.

End IdempotencyCounter.

Lemma same_key_processed_once_witness :
  let e := mkEvent "t" "e1" "2025-10-18T10:00:00Z" "src" "{}" in
  let tr := [LStart; LPublish [e; e]; LGet 0; LGet 1;
             LProcess 0 "n1" None; LProcess 1 "n2" None; LWake 0;
             LStop; LExit 0; LExit 1; LExit 2; LExit 3; LExit 4;
             LReopen 10; LStart; LPublish [e]] in
  exists w os,
    run (boot DedupStore.fresh 0) tr = Some (w, os)
    /\ store w = [("t", "e1", "2025-10-18T10:00:00Z", "n1")]%string
    /\ unique_processed (agg w) = 0
    /\ duplicate_dropped (agg w) = 1
    /\ DedupStore.count_key ("t", "e1")%string (store w) = 1
    /\ counter_increments ("t", "e1")%string (boot DedupStore.fresh 0) tr
       = 1.
Proof.
  intros e tr. eexists _, _.
  split; [vm_compute; reflexivity|].
  do 3 (split; [reflexivity|]).
  destruct (same_key_processed_once ("t", "e1")%string DedupStore.fresh 0 tr
              _ _ ltac:(vm_compute; lia) ltac:(vm_compute; reflexivity)
              ltac:(reflexivity) ltac:(reflexivity)
              ltac:(vm_compute; lia) ltac:(reflexivity))
    as (H1 & _ & _ & H4 & _).
  split; [exact H1|apply H4; reflexivity].
Defined.

(** C1, as the specification has it, fails: when the INSERT of the one
    published event fails, the worker logs the error and goes on, and the
    run ends drained with no row for the key and the counter at zero. *)
Lemma idempotency_fails_on_store_failure :
  ~ idempotent_whatever_the_store_does.
Proof.
  intros H.
  set (e := mkEvent "t" "e1" "2025-10-18T10:00:00Z" "src" "{}").
  destruct (H DedupStore.fresh 0%Q ("t", "e1")%string
              [LStart; LPublish [e]; LGet 0;
               LProcess 0 "n1" (Some OperationalError)]
              _ _ eq_refl eq_refl eq_refl) as [Hc _].
  - vm_compute. lia.
  - reflexivity.
  - vm_compute in Hc. discriminate Hc.
Qed.
